(** * pymhlib: population, steady-state GA and settings

    A shallow embedding of [mhlib/population.py], [mhlib/ssga.py] and
    [mhlib/settings.py], with the properties of the engine that the
    specification states about them.

    Conventions.
    - Python exceptions are values of [exn]; a computation that may raise
      returns [res A].
    - [while] loops that need not terminate take a fuel argument and return
      [None] when the fuel is used up before the loop is left.
    - The classes [Solution], [Method], [Result] and [Scheduler] are
      defined in [mhlib.solution] and [mhlib.scheduler], outside the three
      modules embedded here; what the code uses of them is a parameter of
      the section that embeds the code.
    - An attribute that no class of the call defines raises
      [AttributeError], as the interpreter does.
    - The random number generators are threaded explicitly as a [World]. *)

From Stdlib Require Import ZArith QArith Lia.
From stdpp Require Import base option list sorting gmap strings.

Open Scope Z_scope.

(** ** Exceptions and results *)

Inductive exn : Type :=
  | IndexError
  | ValueError
  | StatisticsError      (* statistics.StatisticsError, a ValueError *)
  | StopIteration
  | AttributeError
  | TypeError
  | FileNotFoundError
  | UnpicklingError
  | InvalidConfiguration (* the specification's error kind for an option out
                            of range; no line of the three modules raises it *).

Inductive res (A : Type) : Type :=
  | Ok (a : A)
  | Raise (e : exn).
Arguments Ok {A} a.
Arguments Raise {A} e.

(** [l[i]] for a Python list: negative indices count from the end. *)
Definition getitem {A : Type} (l : list A) (i : Z) : res A :=
  let j := if i <? 0 then i + Z.of_nat (length l) else i in
  if j <? 0 then Raise IndexError
  else match l !! Z.to_nat j with
       | Some x => Ok x
       | None => Raise IndexError
       end.


(** ** Result and Method ([mhlib.scheduler], used by the population) *)

Record Result : Type := mkResult { changed : bool; terminate : bool }.

(** [Result()]: both flags start out false. *)
Definition Result_new : Result := {| changed := false; terminate := false |}.

(** A method [Method(name, func, par)].  [func(sol, par, res)] may change
    the solution it is given, the result record and the random number
    generators; the embedding returns the three. *)
Record Method (Solution Par World : Type) : Type := mkMethod {
  name : string;
  func : Solution → option Par → Result → World → Solution * Result * World;
  par : option Par
}.
Arguments mkMethod {Solution Par World} name func par.
Arguments name {Solution Par World} m.
Arguments func {Solution Par World} m.
Arguments par {Solution Par World} m.

(** The options the engine reads from [own_settings], with the types the
    parsers of [population.py] and [ssga.py] declare.  The two
    probabilities are compared with [random.random()]. *)
Record OwnSettings : Type := mkOwnSettings {
  mh_pop_size : Z;
  mh_tournament_size : Z;
  mh_dupelim : bool;
  mh_ssga_cross_prob : Q;
  mh_ssga_loc_prob : Q
}.

(** ** Population ([mhlib/population.py]) *)

Section Population.

(** The solution class: [is_better], [is_worse], [__eq__] and [obj]. *)
Context {Solution Par World : Type}.
Variable is_better : Solution → Solution → bool.
Variable is_worse : Solution → Solution → bool.
Variable sol_eq : Solution → Solution → bool.
Variable obj : Solution → Q.

(** [random.randint(a, b)], defined by the library for [a <= b]. *)
Variable randint : Z → Z → World → Z * World.

(** The square root taken by [statistics.stdev]. *)
Variable sqrt : Q → Q.

(** The loop shared by [best] and [worst]:
    [cur = 0; for i in range(len(self)): if cmp(self[i], self[cur]): cur = i].
    Both lookups are in range whenever the loop body runs. *)
Definition scan_step (cmp : Solution → Solution → bool)
    (pop : list Solution) (cur i : nat) : nat :=
  match pop !! i, pop !! cur with
  | Some x, Some c => if cmp x c then i else cur
  | _, _ => cur
  end.

Definition scan (cmp : Solution → Solution → bool) (pop : list Solution) : nat :=
  fold_left (scan_step cmp pop) (seq 0 (length pop)) 0%nat.

(** What the loop of [scan] has established once the indices below [i] are
    visited: no member below [i] beats the current one, and the current one
    beats every member before it. *)
Definition scan_inv (cmp : Solution → Solution → bool)
    (pop : list Solution) (i cur : nat) : Prop :=
  ∃ xc, pop !! cur = Some xc
      ∧ (∀ j xj, (j < i)%nat → pop !! j = Some xj → cmp xj xc = false)
      ∧ (∀ j xj, (j < cur)%nat → pop !! j = Some xj → cmp xc xj = true).

Definition best (pop : list Solution) : nat := scan is_better pop.

Definition worst (pop : list Solution) : nat := scan is_worse pop.

(** [duplicates_of]: the indices of the members [individual] with
    [individual == solution], appended while enumerating. *)
Definition duplicates_of (pop : list Solution) (solution : Solution) : list nat :=
  fold_left
    (λ duplicates '(idx, individual),
       if sol_eq individual solution then duplicates ++ [idx] else duplicates)
    (zip (seq 0 (length pop)) pop) [].

(** Modelled from the spec: [Solution.copy], a deep clone.  [sol.copy()] is
    a new object holding the value of [sol]. *)
Definition copy (sol : Solution) : Solution := sol.

(** [next(meths_cycle)] at the [pos]-th call: [itertools.cycle] repeats the
    list round-robin and is exhausted at once when the list is empty. *)
Definition cycle_next {A : Type} (l : list A) (pos : nat) : option A :=
  l !! (pos mod length l)%nat.

(** The [while] loop of [Population.__init__].  [self] is the list built so
    far, [pos] counts the calls of [next(meths_cycle)], [sol] is the
    variable [sol].  Every [sol.copy()] is a fresh object; once appended it
    is not touched again, so the list of values is the list of objects. *)
Fixpoint init_loop (own_settings : OwnSettings)
    (meths_ch : list (Method Solution Par World)) (fuel : nat)
    (self : list Solution) (pos : nat) (sol : Solution) (w : World)
    : option (res (list Solution) * World) :=
  match fuel with
  | O => None
  | S fuel' =>
    if Z.of_nat (length self) <? mh_pop_size own_settings then
      match cycle_next meths_ch pos with
      | None => Some (Raise StopIteration, w)
      | Some m =>
        let sol := copy sol in
        let '(sol', r, w') := func m sol (par m) Result_new w in
        if mh_dupelim own_settings
           && negb (bool_decide (duplicates_of self sol' = [])) then
          (* do not add this duplicate individual *)
          init_loop own_settings meths_ch fuel' self (S pos) sol' w'
        else
          let self' := self ++ [sol'] in
          if terminate r then Some (Ok self', w')
          else init_loop own_settings meths_ch fuel' self' (S pos) sol' w'
      end
    else Some (Ok self, w)
  end.

Definition Population_init (own_settings : OwnSettings)
    (meths_ch : list (Method Solution Par World)) (fuel : nat)
    (sol : Solution) (w : World) : option (res (list Solution) * World) :=
  init_loop own_settings meths_ch fuel [] 0%nat sol w.

(** [random.randint(a, b)] raises [ValueError] on an empty range. *)
Definition py_randint (a b : Z) (w : World) : res Z * World :=
  if b <? a then (Raise ValueError, w)
  else let '(x, w') := randint a b w in (Ok x, w').

(** The [for i in range(k - 1)] loop of [selection]; [n] is what is left of
    the range. *)
Fixpoint selection_loop (self : list Solution) (n : nat) (best : Z) (w : World)
    : res Z * World :=
  match n with
  | O => (Ok best, w)
  | S n' =>
    match py_randint 1 (Z.of_nat (length self) - 1) w with
    | (Raise e, w') => (Raise e, w')
    | (Ok individual, w') =>
      match getitem self individual, getitem self best with
      | Ok x, Ok b =>
        selection_loop self n' (if is_better x b then individual else best) w'
      | Raise e, _ | _, Raise e => (Raise e, w')
      end
    end
  end.

(** Tournament selection. *)
Definition selection (own_settings : OwnSettings) (self : list Solution) (w : World)
    : res Z * World :=
  let k := mh_tournament_size own_settings in
  match py_randint 1 (Z.of_nat (length self) - 1) w with
  | (Raise e, w') => (Raise e, w')
  | (Ok best, w') => selection_loop self (Z.to_nat (k - 1)) best w'
  end.




Definition Qsum (l : list Q) : Q := foldr Qplus 0%Q l.

(** [obj_avg].  The objectives are floating-point numbers in the code,
    rationals here: the mean is the exact one, which the code returns up to
    rounding.  What is proved of [obj_avg] and [obj_std] is when they
    raise. *)
Definition obj_avg (self : list Solution) : res Q :=
  if (length self <? 1)%nat then Raise ValueError
  else
    let objectives := map obj self in
    Ok (Qsum objectives / inject_Z (Z.of_nat (length objectives)))%Q.

(** [statistics.stdev(data)]: the square root of the sample variance;
    [StatisticsError] for fewer than two data points. *)
Definition stdev (data : list Q) : res Q :=
  if (length data <? 2)%nat then Raise StatisticsError
  else
    let n := inject_Z (Z.of_nat (length data)) in
    let mean := (Qsum data / n)%Q in
    let ss := Qsum (map (λ x, (x - mean) * (x - mean))%Q data) in
    Ok (sqrt (ss / (n - 1))%Q).

(** [obj_std]. *)
Definition obj_std (self : list Solution) : res Q :=
  stdev (map obj self).

End Population.

(** ** Steady-state genetic algorithm ([mhlib/ssga.py]) *)

(** The objects of a run live in a store [heap], addressed by their
    position; [population] and [incumbent] hold addresses, as the Python
    attributes hold references.  [sched] stands for the attributes the
    base class [Scheduler] keeps. *)
Record SSGA (Solution Sched World : Type) : Type := mkSSGA {
  heap : list Solution;
  population : list nat;
  incumbent : nat;
  sched : Sched;
  world : World
}.
Arguments mkSSGA {Solution Sched World} heap population incumbent sched world.
Arguments heap {Solution Sched World} s.
Arguments population {Solution Sched World} s.
Arguments incumbent {Solution Sched World} s.
Arguments sched {Solution Sched World} s.
Arguments world {Solution Sched World} s.


Section SteadyStateGeneticAlgorithm.

Context {Solution Par Sched World : Type}.
Variable is_better : Solution → Solution → bool.
Variable is_worse : Solution → Solution → bool.
Variable sol_eq : Solution → Solution → bool.

(** [random.random()]. *)
Variable random : World → Q * World.

(** [Scheduler.__init__(sol, methods, own_settings, population=population)],
    followed by the attribute assignments of lines 53 to 56, which concern
    the scheduler only.  The constructor is called on the store that holds
    the caller's solution and the members of the population, with the list
    of the members' addresses, the address of [sol], the methods, the options
    and the generators; it may raise, and what it returns otherwise is the
    object with the attributes it has set, [population] and [incumbent] among
    them, in a store and with generators that it may have changed. *)
Variable scheduler_init :
  list Solution → list nat → nat → list (option (Method Solution Par World)) →
  OwnSettings → World → res (SSGA Solution Sched World).

(** [Scheduler.perform_methods]. *)
Variable perform_methods :
  list (Method Solution Par World) → nat → SSGA Solution Sched World →
  res (Result * SSGA Solution Sched World).

Abbreviation state := (SSGA Solution Sched World).
Abbreviation method := (Method Solution Par World).

(** The object behind an address.  No reference of a running program
    dangles; the error branch is there to make the function total. *)
Definition deref (h : list Solution) (a : nat) : res Solution :=
  match h !! a with
  | Some v => Ok v
  | None => Raise AttributeError
  end.

(** The members of the population, as the queries of [Population] see them. *)
Definition members (st : state) : list Solution :=
  omap (λ a, heap st !! a) (population st).


(** Modelled from the spec: [Solution.copy_from], which overwrites the
    solution with the other one.  [dst.copy_from(src)]: the object at [dst]
    takes the value of [src]. *)
Definition copy_from (dst : nat) (src : Solution) (st : state) : state :=
  mkSSGA (<[dst := src]> (heap st)) (population st) (incumbent st)
         (sched st) (world st).


Definition set_incumbent (a : nat) (st : state) : state :=
  mkSSGA (heap st) (population st) a (sched st) (world st).

(** [SteadyStateGeneticAlgorithm.__init__].  The caller's [sol] is the
    object at address 0, the members of the population built at line 51
    follow it.  Line 58 reads the attribute [population] of the object that
    [Scheduler.__init__] has set up. *)
Definition ssga_init (own_settings : OwnSettings) (fuel : nat) (sol : Solution)
    (meths_ch : list method) (meth_mu : method) (meth_li : option method)
    (w : World) : option (res state) :=
  (* population = Population(sol, meths_ch, own_settings) *)
  match Population_init sol_eq own_settings meths_ch fuel sol w with
  | None => None
  | Some (Raise e, _) => Some (Raise e)
  | Some (Ok pop, w') =>
    Some (
      (* super().__init__(sol, meths_ch + [meth_mu] + [meth_li], own_settings,
                          population=population) *)
      match scheduler_init (sol :: pop) (seq 1 (length pop)) 0%nat
                           ((Some <$> meths_ch) ++ [Some meth_mu] ++ [meth_li])
                           own_settings w' with
      | Raise e => Raise e
      | Ok st =>
        (* self.incumbent = self.population[self.population.best()] *)
        match getitem (population st) (Z.of_nat (best is_better (members st))) with
        | Raise e => Raise e
        | Ok a => Ok (set_incumbent a st)
        end
      end)
  end.







(** The end of an iteration: replace the worst member, update the
    incumbent. *)
Definition run_finish (p1 : nat) (st : state) : res state :=
  let worst := worst is_worse (members st) in
  match getitem (population st) (Z.of_nat worst) with
  | Raise e => Raise e
  | Ok aw =>
    match deref (heap st) p1 with
    | Raise e => Raise e
    | Ok v1 =>
      (* population[worst].copy_from(p1) *)
      let st := copy_from aw v1 st in
      match deref (heap st) p1, deref (heap st) (incumbent st) with
      | Ok v1, Ok vi =>
        (* if p1.is_better(self.incumbent): self.incumbent = p1 *)
        Ok (if is_better v1 vi then set_incumbent p1 st else st)
      | Raise e, _ | _, Raise e => Raise e
      end
    end
  end.



End SteadyStateGeneticAlgorithm.

(** ** Settings ([mhlib/settings.py]) *)

(** The values an option can hold. *)
Inductive value : Type :=
  | VInt (z : Z)
  | VBool (b : bool)
  | VFloat (q : Q)
  | VStr (s : string).

(** [np.iinfo(np.int32).max] *)
Definition INT32_MAX : Z := 2147483647.

(** [v == 0] *)
Definition py_eq_zero (v : value) : bool :=
  match v with
  | VInt z => z =? 0
  | VBool b => negb b
  | VFloat q => Qeq_bool q 0
  | VStr _ => false
  end.

(** [np.random.seed(v)]: the integer the generator is seeded with.  NumPy
    takes integers (and booleans, which are integers) from 0 to 2**32 - 1. *)
Definition np_random_seed (v : value) : res Z :=
  match v with
  | VInt z => if (0 <=? z) && (z <? 2 ^ 32) then Ok z else Raise ValueError
  | VBool b => Ok (Z.b2z b)
  | VFloat _ | VStr _ => Raise TypeError
  end.

(** The state of the module and of what it acts on: the global namespace
    [settings] (a map from option names to values), the files, and for each
    of the two generators the seed it was last given ([None]: seeded from
    the entropy of the operating system, or not yet seeded). *)
Record Globals (blob : Type) : Type := mkGlobals {
  settings : gmap string value;
  files : gmap string blob;
  np_seed : option Z;
  py_seed : option value
}.
Arguments mkGlobals {blob} settings files np_seed py_seed.
Arguments settings {blob} g.
Arguments files {blob} g.
Arguments np_seed {blob} g.
Arguments py_seed {blob} g.

Section Settings.

(** [pickle]: an opaque binary format. *)
Context {blob : Type}.
Variable pickle_dumps : gmap string value → blob.
Variable pickle_loads : blob → option (gmap string value).

(** [seed_random_generators].  [draw] is what
    [np.random.randint(np.iinfo(np.int32).max)] returns when it is called on
    the freshly seeded generator: a number from 0 to [INT32_MAX - 1]. *)
Definition seed_random_generators (draw : Z) (g : Globals blob)
    : res () * Globals blob :=
  match settings g !! "seed" with
  | None => (Raise AttributeError, g)
  | Some v =>
    (* if settings.seed == 0: np.random.seed(); settings.seed = ... *)
    let '(v, g) :=
      if py_eq_zero v then
        (VInt draw,
         mkGlobals (<["seed" := VInt draw]> (settings g)) (files g) None (py_seed g))
      else (v, g) in
    (* np.random.seed(settings.seed); random.seed(settings.seed) *)
    match np_random_seed v with
    | Raise e => (Raise e, g)
    | Ok z => (Ok (), mkGlobals (settings g) (files g) (Some z) (Some v))
    end
  end.



End Settings.

(** ** A concrete problem

    Modelled from the spec: the solution class.  A solution is its objective
    value, the problem is a minimisation ([to_maximize = False], as for the
    travelling salesman demo): [is_better] and [is_worse] compare objective
    values, [==] is equality of objective values.  The generators replay a
    list of numbers. *)
Module Demo.

Definition is_better (a b : Z) : bool := a <? b.
Definition is_worse (a b : Z) : bool := b <? a.
Definition sol_eq (a b : Z) : bool := a =? b.
Definition obj (a : Z) : Q := inject_Z a.

Definition randint (a b : Z) (w : list Z) : Z * list Z :=
  match w with
  | [] => (a, [])
  | x :: w' => (a + x mod (b - a + 1), w')
  end.

Abbreviation method := (Method Z () (list Z)).
Abbreviation state := (SSGA Z () (list Z)).

(** A construction method that installs the solution [v]. *)
Definition construct (v : Z) : method :=
  mkMethod "ch" (λ _ _ r w, (v, mkResult true (terminate r), w)) None.

(** A construction method that installs [v] and signals termination. *)
Definition construct_stop (v : Z) : method :=
  mkMethod "ch_stop" (λ _ _ _ w, (v, mkResult true true, w)) None.

(** A construction method that installs the next number of the list. *)
Definition construct_next : method :=
  mkMethod "ch_next"
    (λ s _ r w, match w with
                | [] => (s, r, [])
                | x :: w' => (x, mkResult true (terminate r), w')
                end) None.

(** A mutation that adds [d] to the objective. *)
Definition shift (d : Z) : method :=
  mkMethod "mu" (λ s _ r w, (s + d, mkResult true (terminate r), w)) None.

(** The ranges the specification gives for the options: a population of at
    least one member, probabilities from 0 to 1. *)
Definition in_range (own_settings : OwnSettings) : bool :=
  (1 <=? mh_pop_size own_settings)
  && Qle_bool 0 (mh_ssga_cross_prob own_settings)
  && Qle_bool (mh_ssga_cross_prob own_settings) 1
  && Qle_bool 0 (mh_ssga_loc_prob own_settings)
  && Qle_bool (mh_ssga_loc_prob own_settings) 1.

(** Modelled from the spec: [Scheduler.__init__].  An option out of its
    range is an [InvalidConfiguration], detected before [run()]: of what
    [__init__] executes, the constructor of the base class is the part that
    the three modules do not hold, so the check is placed there.  Otherwise
    the scheduler keeps the population it is given, takes the caller's
    solution as its incumbent and leaves the solutions and the generators as
    they are. *)
Definition scheduler_init (h : list Z) (population : list nat) (sol : nat)
    (ms : list (option method)) (own_settings : OwnSettings) (w : list Z)
    : res state :=
  if in_range own_settings then Ok (mkSSGA h population sol () w)
  else Raise InvalidConfiguration.

(** A population with ties for the best and for the worst member. *)
Definition tied_pop : list Z := [5; 1; 9; 1; 9].

Definition tournament_settings : OwnSettings :=
  mkOwnSettings 10 10 false 1%Q (1 # 10)%Q.


End Demo.

(** ** Predicates used to state properties of the engine *)

(** No member of the list equals ([==]) a later one. *)
Definition pairwise_distinct {Solution : Type}
    (sol_eq : Solution → Solution → bool) (pop : list Solution) : Prop :=
  ∀ i j xi xj, (i < j)%nat → pop !! i = Some xi → pop !! j = Some xj →
               sol_eq xi xj = false.

(** ** More of the settings ([mhlib/settings.py]) *)

Section SettingsMore.

Context {blob : Type}.


End SettingsMore.

(** The class [OwnSettings] of [settings.py] (not the record of the options
    of the engine above): an object whose dictionary holds the
    individualised options. *)

(** [OwnSettings(own_settings)]:
    [self.__dict__ = own_settings if own_settings else dict()]. *)
Definition OwnSettings_new (own_settings : option (gmap string value))
    : gmap string value :=
  match own_settings with
  | Some d => d
  | None => ∅
  end.

(** The attribute access [self.item].  An option of the object's own
    dictionary is found at once; otherwise [__getattr__] takes it from the
    global [settings], stores it in the object and returns it. *)
Definition OwnSettings_getattr (item : string)
    (self : gmap string value) (settings : gmap string value)
    : res value * gmap string value :=
  match self !! item with
  | Some v => (Ok v, self)
  | None =>
    match settings !! item with
    | Some val => (Ok val, <[item := val]> self)
    | None => (Raise AttributeError, self)
    end
  end.

(** [sorted(vars(settings).items())]: the options in the order of their
    names.  The names are different, so the values are never compared. *)
Definition key_le (a b : string * value) : Prop := String.leb a.1 b.1 = true.

Global Instance key_le_dec (a b : string * value) : Decision (key_le a b) :=
  bool_eq_dec (String.leb a.1 b.1) true.

Definition sorted_items (ns : gmap string value) : list (string * value) :=
  merge_sort key_le (map_to_list ns).

Definition newline : string := String (Ascii.ascii_of_nat 10) EmptyString.

(** The line [f"{key}={value}\n"]; [str_of] is the text of a value. *)
Definition settings_line (str_of : value → string) (kv : string * value)
    : string :=
  (kv.1 +:+ "=" +:+ str_of kv.2 +:+ newline)%string.

(** [get_settings_as_str]. *)
Definition get_settings_as_str {blob : Type} (str_of : value → string)
    (g : Globals blob) : string :=
  fold_left (λ s kv, (s +:+ settings_line str_of kv)%string)
            (sorted_items (settings g))
            (newline +:+ "settings:" +:+ newline)%string.

(** ** The travelling salesman demo ([mhlib/demos/tsp.py])

    The class [TSPSolution] extends [PermutationSolution], which is
    defined in [mhlib.permutation_solution], outside the modules embedded
    here; of a solution the demo reads and writes the tour [x] and the flag
    [obj_val_valid].  The matrix [distances] is an array of floating-point
    numbers that holds the integer parts [int(dist)] of the Euclidean
    distances.  Its entries are integers here and are added as integers,
    which is what the code computes as long as no sum reaches [2**53] in
    absolute value; a property of the values is stated under that
    condition (see [exact]), a property of what raises needs none. *)
Module TSP.

(** What the methods of the demo raise: the exceptions above, a failed
    [assert], a division by zero. *)
Inductive error : Type :=
  | Exn (e : exn)
  | AssertionError
  | ZeroDivisionError.

Inductive outcome (A : Type) : Type :=
  | Done (a : A)
  | Fail (e : error).
Arguments Done {A} a.
Arguments Fail {A} e.

Definition bind {A B : Type} (m : outcome A) (k : A → outcome B) : outcome B :=
  match m with
  | Done a => k a
  | Fail e => Fail e
  end.

Notation "'let*' x ':=' m 'in' k" := (bind m (λ x, k))
  (at level 10, x name, m at level 100, k at level 200).

(** [l[i]] *)
Definition item {A : Type} (l : list A) (i : Z) : outcome A :=
  match getitem l i with
  | Ok a => Done a
  | Raise e => Fail (Exn e)
  end.

(** [l[i] = v] *)
Definition setitem {A : Type} (l : list A) (i : Z) (v : A) : outcome (list A) :=
  let j := if i <? 0 then i + Z.of_nat (length l) else i in
  if (j <? 0) || (Z.of_nat (length l) <=? j) then Fail (Exn IndexError)
  else Done (<[Z.to_nat j := v]> l).

Record TSPInstance : Type := mkInstance {
  n : Z;
  distances : list (list Z)
}.

Record TSPSolution : Type := mkSolution {
  inst : TSPInstance;
  x : list Z;
  obj_val_valid : bool
}.

(** [d[a][b]] *)
Definition dist (d : list (list Z)) (a b : Z) : outcome Z :=
  let* row := item d a in item row b.

(** The loop of [calc_objective]: [k] rounds are left, [i] is the index of
    the round, [distance] the sum so far. *)
Fixpoint calc_loop (s : TSPSolution) (k : nat) (i : Z) (distance : Z)
    : outcome Z :=
  match k with
  | O => Done distance
  | S k' =>
    let* a := item (x s) i in
    let* row := item (distances (inst s)) a in
    let* b := item (x s) (i + 1) in
    let* e := item row b in
    calc_loop s k' (i + 1) (distance + e)
  end.

(** [calc_objective] *)
Definition calc_objective (s : TSPSolution) : outcome Z :=
  let* distance := calc_loop s (Z.to_nat (n (inst s) - 1)) 0 0 in
  let* a := item (x s) (-1) in
  let* row := item (distances (inst s)) a in
  let* b := item (x s) 0 in
  let* e := item row b in
  Done (distance + e).

(** [two_opt_move_delta_eval] *)
Definition two_opt_move_delta_eval (s : TSPSolution) (p1 p2 : Z) : outcome Z :=
  if negb (p1 <? p2) then Fail AssertionError
  else
    let len := Z.of_nat (length (x s)) in
    if (p1 =? 0) && (p2 =? len - 1) then
      (* reversing the whole solution has no effect *)
      Done 0
    else if len =? 0 then Fail ZeroDivisionError
    else
      let prev := (p1 - 1) mod len in
      let nxt := (p2 + 1) mod len in
      let* x_p1 := item (x s) p1 in
      let* x_p2 := item (x s) p2 in
      let* x_prev := item (x s) prev in
      let* x_next := item (x s) nxt in
      let d := distances (inst s) in
      let* d1 := dist d x_prev x_p2 in
      let* d2 := dist d x_p1 x_next in
      let* d3 := dist d x_prev x_p1 in
      let* d4 := dist d x_p2 x_next in
      Done (d1 + d2 - d3 - d4).

(** The bound [i] of a slice of a sequence of length [len]. *)
Definition slice_bound (len i : Z) : Z :=
  if i <? 0 then Z.max (i + len) 0 else Z.min i len.

(** [apply_2_opt_move]:
    [self.x[p1:(p2 + 1)] = self.x[p1:(p2 + 1)][::-1]] for [move = (p1, p2)].
    The slice is the one of a Python sequence (a NumPy array on
    Python 3.7 or later takes the reversed slice as a list does).  The
    flag [obj_val_valid] is not touched. *)
Definition apply_2_opt_move (s : TSPSolution) (move : Z * Z) : TSPSolution :=
  let '(p1, p2) := move in
  let len := Z.of_nat (length (x s)) in
  let lo := Z.to_nat (slice_bound len p1) in
  let hi := Nat.max lo (Z.to_nat (slice_bound len (p2 + 1))) in
  mkSolution (inst s)
    (take lo (x s) ++ reverse (take (hi - lo) (drop lo (x s))) ++ drop hi (x s))
    (obj_val_valid s).

(** [apply_neighborhood_move] *)
Definition apply_neighborhood_move (s : TSPSolution) (move : Z * Z)
    : TSPSolution :=
  apply_2_opt_move s move.

(** Modelled from the spec: [Solution.invalidate], which clears the
    validity flag of the cached objective. *)
Definition invalidate (s : TSPSolution) : TSPSolution :=
  mkSolution (inst s) (x s) false.

(** [self.x[a], self.x[b] = self.x[b], self.x[a]] *)
Definition swap (xs : list Z) (a b : Z) : outcome (list Z) :=
  let* xb := item xs b in
  let* xa := item xs a in
  let* xs := setitem xs a xb in
  setitem xs b xa.

Section Random.

Context {World : Type}.
Variable randint : Z → Z → World → Z * World.

(** [propose_random_2_opt_move] *)
Definition propose_random_2_opt_move (s : TSPSolution) (w : World)
    : outcome ((Z * Z) * Z) * World :=
  let len := Z.of_nat (length (x s)) in
  match py_randint randint 0 (len - 2) w with
  | (Raise e, w) => (Fail (Exn e), w)
  | (Ok p1, w) =>
    match py_randint randint (p1 + 1) (len - 1) w with
    | (Raise e, w) => (Fail (Exn e), w)
    | (Ok p2, w) =>
      match two_opt_move_delta_eval s p1 p2 with
      | Fail e => (Fail e, w)
      | Done delta_f => (Done ((p1, p2), delta_f), w)
      end
    end
  end.

(** [propose_neighborhood_move] *)
Definition propose_neighborhood_move (s : TSPSolution) (w : World)
    : outcome ((Z * Z) * Z) * World :=
  propose_random_2_opt_move s w.

(** The loop of [shaking]: [k] swaps are left. *)
Fixpoint shaking_loop (inst_n : Z) (k : nat) (xs : list Z) (w : World)
    : outcome (list Z) * World :=
  match k with
  | O => (Done xs, w)
  | S k' =>
    match py_randint randint 0 (inst_n - 1) w with
    | (Raise e, w) => (Fail (Exn e), w)
    | (Ok a, w) =>
      match py_randint randint 0 (inst_n - 1) w with
      | (Raise e, w) => (Fail (Exn e), w)
      | (Ok b, w) =>
        match swap xs a b with
        | Fail e => (Fail e, w)
        | Done xs => shaking_loop inst_n k' xs w
        end
      end
    end
  end.

(** [shaking(par, result)] *)
Definition shaking (s : TSPSolution) (par : Z) (result : Result) (w : World)
    : outcome (TSPSolution * Result) * World :=
  match shaking_loop (n (inst s)) (Z.to_nat par) (x s) w with
  | (Fail e, w) => (Fail e, w)
  | (Done xs, w) =>
    (Done (invalidate (mkSolution (inst s) xs (obj_val_valid s)),
           mkResult true (terminate result)), w)
  end.

End Random.

(** *** What the properties of the demo are stated with *)

(** The entry [d[a][b]], 0 where there is none. *)
Definition D (d : list (list Z)) (a b : Z) : Z :=
  match dist d a b with
  | Done v => v
  | Fail _ => 0
  end.

(** The length of the path along [l]. *)
Fixpoint path_cost (d : list (list Z)) (l : list Z) : Z :=
  match l with
  | a :: t =>
    match t with
    | b :: _ => D d a b + path_cost d t
    | [] => 0
    end
  | [] => 0
  end.

(** The distance from the end of [l1] to the start of [l2]. *)
Definition link (d : list (list Z)) (l1 l2 : list Z) : Z :=
  match last l1, head l2 with
  | Some a, Some b => D d a b
  | _, _ => 0
  end.

(** The length of the round trip along [l]. *)
Definition tour_cost (d : list (list Z)) (l : list Z) : Z :=
  path_cost d l + link d l l.

(** The matrix is square, of the size of the instance. *)
Definition square (i : TSPInstance) : Prop :=
  Z.of_nat (length (distances i)) = n i
  ∧ Forall (λ row, Z.of_nat (length row) = n i) (distances i).

(** The matrix is symmetric. *)
Definition symmetric (i : TSPInstance) : Prop :=
  ∀ a b, 0 ≤ a < n i → 0 ≤ b < n i →
         D (distances i) a b = D (distances i) b a.

(** The tour visits [n] cities, each a city of the instance. *)
Definition cities (i : TSPInstance) (xs : list Z) : Prop :=
  Z.of_nat (length xs) = n i ∧ Forall (λ c, 0 ≤ c < n i) xs.

(** The distances are whole numbers, as [__init__] stores them
    ([int(dist)]), not negative, and so small that [n] of them add up to
    less than [2**53].  The sums that [calc_objective] and the delta
    evaluation form are then whole numbers below [2**53] in absolute value,
    which the floating-point arithmetic of the matrix adds and subtracts
    without rounding: the integers of the embedding are the values of the
    code. *)
Definition exact (i : TSPInstance) : Prop :=
  ∀ a b, 0 ≤ a < n i → 0 ≤ b < n i →
         0 ≤ D (distances i) a b ∧ n i * D (distances i) a b < 2 ^ 53.

(** A symmetric instance of four cities and a tour. *)
Definition square4 : TSPInstance :=
  mkInstance 4 [[0; 2; 9; 10]; [2; 0; 6; 4]; [9; 6; 0; 3]; [10; 4; 3; 0]].
Definition tour4 : TSPSolution := mkSolution square4 [0; 2; 1; 3] false.

End TSP.

(** * Properties *)

(** ** [best] and [worst] *)

Section ScanFacts.

Context {Solution : Type}.
Variable cmp : Solution → Solution → bool.

(** [cmp] is a strict weak order: what the comparisons of solutions are,
    being comparisons of objective values in a fixed direction. *)
Hypothesis cmp_irrefl : ∀ x, cmp x x = false.
Hypothesis cmp_trans : ∀ x y z, cmp x y = true → cmp y z = true → cmp x z = true.
Hypothesis cmp_negtrans :
  ∀ x y z, cmp x z = true → cmp x y = true ∨ cmp y z = true.

Lemma scan_inv_step pop i cur :
  (i < length pop)%nat →
  scan_inv cmp pop i cur → scan_inv cmp pop (S i) (scan_step cmp pop cur i).
Proof using cmp_irrefl cmp_trans cmp_negtrans.
  intros Hi (xc & Hc & Hle & Hlt).
  destruct (lookup_lt_is_Some_2 pop i Hi) as [x Hx].
  unfold scan_step. rewrite Hx, Hc.
  destruct (cmp x xc) eqn:E.
  - exists x. split; [done|]. split.
    + intros j xj Hj Hxj.
      destruct (decide (j = i)) as [->|Hne].
      * rewrite Hx in Hxj. injection Hxj as <-. apply cmp_irrefl.
      * destruct (cmp xj x) eqn:E'; [|done].
        rewrite <- (Hle j xj); [|lia|done]. symmetry. by eapply cmp_trans.
    + intros j xj Hj Hxj.
      destruct (cmp_negtrans x xj xc E) as [H|H]; [done|].
      rewrite (Hle j xj) in H; [done|lia|done].
  - exists xc. split; [done|]. split; [|done].
    intros j xj Hj Hxj.
    destruct (decide (j = i)) as [->|Hne].
    + rewrite Hx in Hxj. by injection Hxj as <-.
    + apply (Hle j); [lia|done].
Qed.

Lemma scan_inv_loop pop k : ∀ s cur,
  (s + k = length pop)%nat →
  scan_inv cmp pop s cur →
  scan_inv cmp pop (s + k) (fold_left (scan_step cmp pop) (seq s k) cur).
Proof using cmp_irrefl cmp_trans cmp_negtrans.
  induction k as [|k IH]; intros s cur Hlen Hinv; simpl.
  - by rewrite Nat.add_0_r.
  - replace (s + S k)%nat with (S s + k)%nat by lia.
    apply IH; [lia|]. apply scan_inv_step; [lia|done].
Qed.

(** On a non-empty list [scan] ends on a member that no member beats, and
    on the first such member. *)
Lemma scan_spec pop :
  pop ≠ [] →
  ∃ xc, pop !! scan cmp pop = Some xc
      ∧ (∀ j xj, pop !! j = Some xj → cmp xj xc = false)
      ∧ (∀ j xj, pop !! j = Some xj →
           (∀ i xi, pop !! i = Some xi → cmp xi xj = false) →
           (scan cmp pop ≤ j)%nat).
Proof using cmp_irrefl cmp_trans cmp_negtrans.
  intros Hne.
  assert (Hinv0 : scan_inv cmp pop 0 0).
  { destruct pop as [|x0 pop]; [done|]. exists x0. repeat split; intros; lia. }
  pose proof (scan_inv_loop pop (length pop) 0 0 eq_refl Hinv0) as (xc & Hc & Hle & Hlt).
  fold (scan cmp pop) in Hc, Hlt.
  exists xc. split; [done|]. split.
  - intros j xj Hj. apply (Hle j); [|done]. simpl. by eapply lookup_lt_Some.
  - intros j xj Hj Hbest.
    destruct (decide (scan cmp pop ≤ j)%nat) as [|Hgt]; [done|].
    pose proof (Hlt j xj ltac:(lia) Hj) as Hbeat.
    rewrite (Hbest _ _ Hc) in Hbeat. discriminate.
Qed.

End ScanFacts.

Section BestWorst.

Context {Solution : Type}.
Variable is_better : Solution → Solution → bool.
Variable is_worse : Solution → Solution → bool.

Hypothesis better_irrefl : ∀ x, is_better x x = false.
Hypothesis better_trans :
  ∀ x y z, is_better x y = true → is_better y z = true → is_better x z = true.
Hypothesis better_negtrans :
  ∀ x y z, is_better x z = true → is_better x y = true ∨ is_better y z = true.
Hypothesis worse_better : ∀ x y, is_worse x y = is_better y x.

(** C9.  On a non-empty population [best()] is the index of a member that is
    not worse than any member, and the lowest index of such a member;
    [worst()] is the index of a member that is not better than any member,
    and the lowest index of such a member.  The comparisons are those of a
    solution class that orders solutions by objective value: [is_better] is
    a strict weak order and [is_worse] is its converse. *)
Theorem best_worst_lowest_extreme (pop : list Solution) :
  pop ≠ [] →
  (∃ xb, pop !! best is_better pop = Some xb
       ∧ (∀ j xj, pop !! j = Some xj → is_worse xb xj = false)
       ∧ (∀ j xj, pop !! j = Some xj →
            (∀ i xi, pop !! i = Some xi → is_worse xj xi = false) →
            (best is_better pop ≤ j)%nat))
  ∧
  (∃ xw, pop !! worst is_worse pop = Some xw
       ∧ (∀ j xj, pop !! j = Some xj → is_better xw xj = false)
       ∧ (∀ j xj, pop !! j = Some xj →
            (∀ i xi, pop !! i = Some xi → is_better xj xi = false) →
            (worst is_worse pop ≤ j)%nat)).
Proof using better_irrefl better_trans better_negtrans worse_better.
  intros Hne. split.
  - destruct (scan_spec is_better better_irrefl better_trans better_negtrans pop Hne)
      as (xb & Hb & Hno & Hmin).
    exists xb. split; [done|]. split.
    + intros j xj Hj. rewrite worse_better. by eapply Hno.
    + intros j xj Hj Hall. apply (Hmin j xj Hj).
      intros i xi Hi. rewrite <- worse_better. by eapply Hall.
  - assert (Hirr : ∀ x, is_worse x x = false).
    { intros x. by rewrite worse_better. }
    assert (Htr : ∀ x y z, is_worse x y = true → is_worse y z = true →
                           is_worse x z = true).
    { intros x y z. rewrite !worse_better. intros H1 H2. by eapply better_trans. }
    assert (Hnt : ∀ x y z, is_worse x z = true →
                           is_worse x y = true ∨ is_worse y z = true).
    { intros x y z. rewrite !worse_better. intros H.
      destruct (better_negtrans z y x H); auto. }
    destruct (scan_spec is_worse Hirr Htr Hnt pop Hne) as (xw & Hw & Hno & Hmin).
    exists xw. split; [done|]. split.
    + intros j xj Hj. rewrite <- worse_better. by eapply Hno.
    + intros j xj Hj Hall. apply (Hmin j xj Hj).
      intros i xi Hi. rewrite worse_better. by eapply Hall.
Qed.

End BestWorst.

(** ** [duplicates_of] *)

Section Duplicates.

Context {Solution : Type}.
Variable sol_eq : Solution → Solution → bool.

Lemma duplicates_of_snoc (pop : list Solution) (x solution : Solution) :
  duplicates_of sol_eq (pop ++ [x]) solution =
  duplicates_of sol_eq pop solution
    ++ (if sol_eq x solution then [length pop] else []).
Proof.
  unfold duplicates_of.
  rewrite length_app, Nat.add_comm. simpl length at 1.
  replace (seq 0 (1 + length pop)) with (seq 0 (length pop) ++ [length pop])
    by (rewrite <- seq_S; reflexivity).
  rewrite zip_with_app by (by rewrite length_seq).
  rewrite fold_left_app. simpl.
  destruct (sol_eq x solution); [done|]. by rewrite app_nil_r.
Qed.

Lemma StronglySorted_snoc {A} (R : A → A → Prop) (l : list A) (x : A) :
  StronglySorted R l → Forall (λ y, R y x) l → StronglySorted R (l ++ [x]).
Proof.
  induction 1 as [|y l Hs IH Hy]; intros Hall; simpl.
  - repeat constructor.
  - apply Forall_cons in Hall as [Hyx Hall].
    constructor; [by apply IH|].
    apply Forall_app. split; [done|]. by constructor.
Qed.

Lemma duplicates_of_elem (pop : list Solution) (solution : Solution) (i : nat) :
  i ∈ duplicates_of sol_eq pop solution ↔
  ∃ x, pop !! i = Some x ∧ sol_eq x solution = true.
Proof.
  induction pop as [|x pop IH] using rev_ind.
  - unfold duplicates_of. simpl. split.
    + intros H. by apply elem_of_nil in H.
    + intros (x & H & _). by rewrite lookup_nil in H.
  - rewrite duplicates_of_snoc, elem_of_app, IH. split.
    + intros [(y & Hy & Heq)|Hi].
      * exists y. split; [|done]. by apply lookup_app_l_Some.
      * destruct (sol_eq x solution) eqn:E; [|by apply elem_of_nil in Hi].
        apply list_elem_of_singleton in Hi as ->.
        exists x. split; [|done]. by rewrite list_lookup_middle.
    + intros (y & Hy & Heq).
      apply lookup_app_Some in Hy as [Hy|[Hlen Hy]].
      * left. by exists y.
      * right. apply list_lookup_singleton_Some in Hy as [Hi ->].
        rewrite Heq. apply list_elem_of_singleton. lia.
Qed.

(** C8.  [duplicates_of(sol)] holds exactly the indices [i] whose member
    [individual] satisfies [individual == sol], in increasing order. *)
Theorem duplicates_of_exact (pop : list Solution) (solution : Solution) :
  (∀ i, i ∈ duplicates_of sol_eq pop solution ↔
        ∃ x, pop !! i = Some x ∧ sol_eq x solution = true)
  ∧ StronglySorted lt (duplicates_of sol_eq pop solution).
Proof.
  split; [apply duplicates_of_elem|].
  induction pop as [|x pop IH] using rev_ind.
  - constructor.
  - rewrite duplicates_of_snoc.
    destruct (sol_eq x solution); [|by rewrite app_nil_r].
    apply StronglySorted_snoc; [done|].
    apply Forall_forall. intros j Hj.
    apply duplicates_of_elem in Hj as (y & Hy & _).
    by eapply lookup_lt_Some.
Qed.

End Duplicates.

(** ** Tournament selection *)

Lemma getitem_in_range {A} (l : list A) (i : Z) :
  0 ≤ i < Z.of_nat (length l) →
  ∃ x, getitem l i = Ok x ∧ l !! Z.to_nat i = Some x.
Proof.
  intros Hi. unfold getitem. cbv zeta.
  rewrite !(proj2 (Z.ltb_ge i 0)) by lia.
  destruct (l !! Z.to_nat i) as [x|] eqn:E; [by exists x|].
  apply lookup_ge_None in E. lia.
Qed.

Section Selection.

Context {Solution World : Type}.
Variable is_better : Solution → Solution → bool.
Variable randint : Z → Z → World → Z * World.

Hypothesis better_irrefl : ∀ x, is_better x x = false.
Hypothesis better_trans :
  ∀ x y z, is_better x y = true → is_better y z = true → is_better x z = true.

(** What the library promises of [random.randint(a, b)]. *)
Hypothesis randint_range : ∀ a b w, a ≤ b → a ≤ (randint a b w).1 ≤ b.





End Selection.

Lemma Demo_better_irrefl x : Demo.is_better x x = false.
Proof. unfold Demo.is_better. lia. Qed.

Lemma Demo_better_trans x y z :
  Demo.is_better x y = true → Demo.is_better y z = true →
  Demo.is_better x z = true.
Proof. unfold Demo.is_better. lia. Qed.

Lemma Demo_better_negtrans x y z :
  Demo.is_better x z = true →
  Demo.is_better x y = true ∨ Demo.is_better y z = true.
Proof.
  unfold Demo.is_better. intros H.
  destruct (Z.ltb_spec x y); [by left|right]. lia.
Qed.

Lemma Demo_worse_better x y : Demo.is_worse x y = Demo.is_better y x.
Proof. reflexivity. Qed.

Lemma Demo_randint_range a b (w : list Z) :
  a ≤ b → a ≤ (Demo.randint a b w).1 ≤ b.
Proof.
  intros Hab. destruct w as [|x w]; simpl; [lia|].
  pose proof (Z.mod_pos_bound x (b - a + 1)). lia.
Qed.

Section Tournament.

Context {World : Type}.
Variable randint : Z → Z → World → Z * World.
Hypothesis randint_range : ∀ a b w, a ≤ b → a ≤ (randint a b w).1 ≤ b.



End Tournament.



(** ** Initialisation of the population *)

Lemma cycle_next_elem {A} (l : list A) (pos : nat) :
  l ≠ [] → ∃ m, cycle_next l pos = Some m ∧ m ∈ l.
Proof.
  intros Hne. unfold cycle_next.
  assert (Hlt : (pos mod length l < length l)%nat).
  { apply Nat.mod_upper_bound. destruct l; [done|simpl; lia]. }
  destruct (lookup_lt_is_Some_2 l _ Hlt) as [m Hm].
  exists m. split; [done|]. by eapply list_elem_of_lookup_2.
Qed.

Section InitDuplicates.

Context {Solution Par World : Type}.
Variable sol_eq : Solution → Solution → bool.
Variable own_settings : OwnSettings.
Variable meths_ch : list (Method Solution Par World).

Hypothesis dupelim_set : mh_dupelim own_settings = true.
Hypothesis meths_nonempty : meths_ch ≠ [].

(** One round of the loop on a duplicate: nothing is appended, the result
    record is not looked at, the next method is up. *)
Lemma init_loop_rejects (fuel : nat) (self : list Solution) (pos : nat)
    (sol : Solution) (w : World) (m : Method Solution Par World) :
  Z.of_nat (length self) < mh_pop_size own_settings →
  cycle_next meths_ch pos = Some m →
  duplicates_of sol_eq self (func m (copy sol) (par m) Result_new w).1.1 ≠ [] →
  init_loop sol_eq own_settings meths_ch (S fuel) self pos sol w =
  init_loop sol_eq own_settings meths_ch fuel self (S pos)
            (func m (copy sol) (par m) Result_new w).1.1
            (func m (copy sol) (par m) Result_new w).2.
Proof using dupelim_set.
  intros Hlen Hm Hdup. simpl.
  rewrite (proj2 (Z.ltb_lt _ _) Hlen), Hm, dupelim_set.
  destruct (func m (copy sol) (par m) Result_new w) as [[sol' r] w'].
  simpl in *. by rewrite bool_decide_eq_false_2.
Qed.

(** Once the population holds a member that every construction output
    equals, and is not yet full, the loop does not come to an end. *)
Lemma init_loop_stuck (v0 : Solution) (fuel : nat) :
  ∀ (self : list Solution) (pos : nat) (sol : Solution) (w : World),
    v0 ∈ self →
    (∀ m s p r w, m ∈ meths_ch → sol_eq v0 (func m s p r w).1.1 = true) →
    Z.of_nat (length self) < mh_pop_size own_settings →
    init_loop sol_eq own_settings meths_ch fuel self pos sol w = None.
Proof using dupelim_set meths_nonempty.
  induction fuel as [|fuel IH]; intros self pos sol w Hin Heq Hlen; [done|].
  destruct (cycle_next_elem meths_ch pos meths_nonempty) as (m & Hm & Hmin).
  rewrite (init_loop_rejects fuel self pos sol w m Hlen Hm).
  - by apply IH.
  - apply list_elem_of_lookup in Hin as [i Hi].
    intros Hnil.
    assert (Hd : i ∈ duplicates_of sol_eq self
                       (func m (copy sol) (par m) Result_new w).1.1).
    { apply duplicates_of_elem. exists v0. split; [done|]. by apply Heq. }
    rewrite Hnil in Hd. by apply elem_of_nil in Hd.
Qed.

(** C2, as the code has it.  With [mh_dupelim] set, a candidate that equals
    a member is not appended and the next construction method is tried;
    the loop keeps no count of the rejections.  If every construction
    output equals the first member, the population is to hold at least two
    members and the first candidate does not signal termination, the loop
    never comes to an end: whatever the number of rounds, the
    initialisation has neither returned a population nor raised. *)
Theorem init_dupelim_retries_forever (sol : Solution) (w : World)
    (m0 : Method Solution Par World) :
  2 ≤ mh_pop_size own_settings →
  cycle_next meths_ch 0 = Some m0 →
  terminate (func m0 (copy sol) (par m0) Result_new w).1.2 = false →
  (∀ m s p r w', m ∈ meths_ch →
     sol_eq (func m0 (copy sol) (par m0) Result_new w).1.1
            (func m s p r w').1.1 = true) →
  (∀ fuel self pos sol' w' m,
     Z.of_nat (length self) < mh_pop_size own_settings →
     cycle_next meths_ch pos = Some m →
     duplicates_of sol_eq self (func m (copy sol') (par m) Result_new w').1.1 ≠ [] →
     init_loop sol_eq own_settings meths_ch (S fuel) self pos sol' w' =
     init_loop sol_eq own_settings meths_ch fuel self (S pos)
               (func m (copy sol') (par m) Result_new w').1.1
               (func m (copy sol') (par m) Result_new w').2)
  ∧ (∀ fuel, Population_init sol_eq own_settings meths_ch fuel sol w = None).
Proof using dupelim_set meths_nonempty.
  intros Hsize Hm0 Hterm Heq. split; [apply init_loop_rejects|].
  intros [|fuel]; [done|].
  unfold Population_init. cbn [init_loop].
  rewrite (proj2 (Z.ltb_lt (Z.of_nat (length (@nil Solution)))
                           (mh_pop_size own_settings))) by (simpl; lia).
  rewrite Hm0, dupelim_set.
  destruct (func m0 (copy sol) (par m0) Result_new w) as [[v0 r] w1] eqn:E.
  cbn [fst snd] in Hterm, Heq.
  change (duplicates_of sol_eq [] v0) with (@nil nat).
  rewrite bool_decide_eq_true_2 by done. cbn [negb andb].
  rewrite Hterm.
  apply (init_loop_stuck v0); [by apply list_elem_of_singleton|done|simpl; lia].
Qed.

End InitDuplicates.

(** The theorem for five members and one construction method that always
    installs the solution 7, after a thousand rounds. *)
Lemma init_dupelim_retries_forever_witness :
  Population_init Demo.sol_eq (mkOwnSettings 5 10 true 1%Q (1 # 10)%Q)
                  [Demo.construct 7] 1000 0 [] = None.
Proof.
  refine (proj2 (init_dupelim_retries_forever Demo.sol_eq
                   (mkOwnSettings 5 10 true 1%Q (1 # 10)%Q) [Demo.construct 7]
                   eq_refl _ 0 [] (Demo.construct 7) _ eq_refl eq_refl _)
                1000%nat).
  - discriminate.
  - simpl. lia.
  - intros m s p r w' Hm. apply list_elem_of_singleton in Hm as ->. reflexivity.
Defined.

(** C2 as stated fails: for [mh_pop_size = 5] with [mh_dupelim] set and a
    construction method that always installs the same solution, the
    initialisation is still running after 1 + 500 rounds (the first
    candidate and 100 * 5 rejections), and after 5000: it has not failed
    and it has not returned. *)
Lemma init_dupelim_counterexample :
  let own_settings := mkOwnSettings 5 10 true 1%Q (1 # 10)%Q in
  Population_init Demo.sol_eq own_settings [Demo.construct 7] 501 0 [] = None
  ∧ Population_init Demo.sol_eq own_settings [Demo.construct 7] 502 0 [] = None
  ∧ Population_init Demo.sol_eq own_settings [Demo.construct 7] 5000 0 [] = None.
Proof. cbv zeta. repeat split; vm_compute; reflexivity. Qed.

(** ** Statistics of the population *)

Section Statistics.

Context {Solution Par World : Type}.
Variable sol_eq : Solution → Solution → bool.
Variable obj : Solution → Q.
Variable sqrt : Q → Q.

(** A first candidate that signals termination ends the initialisation
    with a population of one member, whatever [mh_pop_size] asks for. *)
Lemma init_terminate_short (own_settings : OwnSettings)
    (meths_ch : list (Method Solution Par World)) (fuel : nat)
    (sol : Solution) (w : World) (m0 : Method Solution Par World) :
  1 ≤ mh_pop_size own_settings →
  cycle_next meths_ch 0 = Some m0 →
  terminate (func m0 (copy sol) (par m0) Result_new w).1.2 = true →
  Population_init sol_eq own_settings meths_ch (S fuel) sol w =
  Some (Ok [(func m0 (copy sol) (par m0) Result_new w).1.1],
        (func m0 (copy sol) (par m0) Result_new w).2).
Proof.
  intros Hsize Hm0 Hterm.
  unfold Population_init. cbn [init_loop].
  rewrite (proj2 (Z.ltb_lt (Z.of_nat (length (@nil Solution)))
                           (mh_pop_size own_settings))) by (simpl; lia).
  rewrite Hm0.
  destruct (func m0 (copy sol) (par m0) Result_new w) as [[v0 r] w1].
  cbn [fst snd] in *.
  change (duplicates_of sol_eq [] v0) with (@nil nat).
  rewrite bool_decide_eq_true_2 by done.
  rewrite andb_false_r, Hterm. done.
Qed.

(** C10.  On a population of fewer than two members [obj_std()] raises
    (the [StatisticsError] of [statistics.stdev]), and on an empty
    population [obj_avg()] raises [ValueError].  The initialisation does
    produce such populations: a first candidate that signals termination
    leaves one member. *)
Theorem obj_std_avg_raise_on_short_population :
  (∀ pop : list Solution,
     (length pop < 2)%nat → obj_std obj sqrt pop = Raise StatisticsError)
  ∧ obj_avg obj [] = Raise ValueError
  ∧ (∀ (own_settings : OwnSettings) (meths_ch : list (Method Solution Par World))
       (fuel : nat) (sol : Solution) (w : World) (m0 : Method Solution Par World),
       1 ≤ mh_pop_size own_settings →
       cycle_next meths_ch 0 = Some m0 →
       terminate (func m0 (copy sol) (par m0) Result_new w).1.2 = true →
       ∃ pop w',
         Population_init sol_eq own_settings meths_ch (S fuel) sol w
           = Some (Ok pop, w')
         ∧ length pop = 1%nat
         ∧ obj_std obj sqrt pop = Raise StatisticsError).
Proof.
  assert (Hstd : ∀ pop : list Solution,
            (length pop < 2)%nat → obj_std obj sqrt pop = Raise StatisticsError).
  { intros pop Hlen. unfold obj_std, stdev. rewrite length_map.
    by rewrite (proj2 (Nat.ltb_lt _ _) Hlen). }
  split; [exact Hstd|]. split; [reflexivity|].
  intros own_settings meths_ch fuel sol w m0 Hsize Hm0 Hterm.
  eexists _, _. split; [by apply init_terminate_short|].
  split; [reflexivity|]. apply Hstd. simpl. lia.
Qed.

End Statistics.

(** The theorem for a population that is asked to hold 100 members and a
    construction method that signals termination. *)
Lemma obj_std_avg_raise_on_short_population_witness :
  ∃ pop w',
    Population_init Demo.sol_eq (mkOwnSettings 100 10 false 1%Q (1 # 10)%Q)
                    [Demo.construct_stop 7] 1 0 [] = Some (Ok pop, w')
    ∧ length pop = 1%nat
    ∧ obj_std Demo.obj (λ q, q) pop = Raise StatisticsError.
Proof.
  refine (proj2 (proj2 (obj_std_avg_raise_on_short_population
                          (Par := ()) (World := list Z)
                          Demo.sol_eq Demo.obj (λ q, q)))
            (mkOwnSettings 100 10 false 1%Q (1 # 10)%Q)
            [Demo.construct_stop 7] 0%nat 0 [] (Demo.construct_stop 7) _ eq_refl eq_refl).
  simpl. lia.
Defined.

(** ** The steady-state genetic algorithm *)

Lemma scan_loop_lt_length {Solution} (cmp : Solution → Solution → bool)
    (pop : list Solution) (k : nat) :
  ∀ s cur, (cur < length pop)%nat →
           (fold_left (scan_step cmp pop) (seq s k) cur < length pop)%nat.
Proof.
  induction k as [|k IH]; intros s cur Hcur; simpl; [done|].
  apply IH. unfold scan_step.
  destruct (pop !! s) as [x|] eqn:Hs; [|done].
  destruct (pop !! cur) as [c|]; [|done].
  destruct (cmp x c); [|done]. by eapply lookup_lt_Some.
Qed.

Lemma scan_lt_length {Solution} (cmp : Solution → Solution → bool)
    (pop : list Solution) :
  pop ≠ [] → (scan cmp pop < length pop)%nat.
Proof.
  intros Hne. apply scan_loop_lt_length.
  destruct pop; [done|simpl; lia].
Qed.

Section InitTerminates.

Context {Solution Par World : Type}.
Variable sol_eq : Solution → Solution → bool.
Variable own_settings : OwnSettings.
Variable meths_ch : list (Method Solution Par World).

Lemma init_loop_S (fuel : nat) (self : list Solution) (pos : nat)
    (sol : Solution) (w : World) :
  init_loop sol_eq own_settings meths_ch (S fuel) self pos sol w =
  if Z.of_nat (length self) <? mh_pop_size own_settings then
    match cycle_next meths_ch pos with
    | None => Some (Raise StopIteration, w)
    | Some m =>
      let '(sol', r, w') := func m (copy sol) (par m) Result_new w in
      if mh_dupelim own_settings
         && negb (bool_decide (duplicates_of sol_eq self sol' = [])) then
        init_loop sol_eq own_settings meths_ch fuel self (S pos) sol' w'
      else
        if terminate r then Some (Ok (self ++ [sol']), w')
        else init_loop sol_eq own_settings meths_ch fuel (self ++ [sol'])
                       (S pos) sol' w'
    end
  else Some (Ok self, w).
Proof. reflexivity. Qed.



End InitTerminates.


Lemma getitem_nat_lookup {A} (l : list A) (i : nat) (x : A) :
  getitem l (Z.of_nat i) = Ok x → l !! i = Some x.
Proof.
  unfold getitem. cbv zeta.
  rewrite !(proj2 (Z.ltb_ge (Z.of_nat i) 0)) by lia.
  rewrite Nat2Z.id. destruct (l !! i); by intros [= ->].
Qed.

Section SSGAFacts.

Context {Solution Par Sched World : Type}.
Variable is_better : Solution → Solution → bool.
Variable is_worse : Solution → Solution → bool.
Variable sol_eq : Solution → Solution → bool.
Variable random : World → Q * World.
Variable scheduler_init :
  list Solution → list nat → nat → list (option (Method Solution Par World)) →
  OwnSettings → World → res (SSGA Solution Sched World).
Variable perform_methods :
  list (Method Solution Par World) → nat → SSGA Solution Sched World →
  res (Result * SSGA Solution Sched World).

Abbreviation state := (SSGA Solution Sched World).
Abbreviation method := (Method Solution Par World).


(** C1 on the code, at initialisation.  When [__init__] returns, the
    incumbent is the very object that the population holds at index
    [best()]: line 58 binds the attribute to the member and makes no copy.
    This holds for every [Scheduler.__init__]. *)
Theorem incumbent_aliases_population_slot (own_settings : OwnSettings)
    (fuel : nat) (sol : Solution) (meths_ch : list method) (meth_mu : method)
    (meth_li : option method) (w : World) (st : state) :
  ssga_init is_better sol_eq scheduler_init own_settings fuel sol meths_ch
            meth_mu meth_li w = Some (Ok st) →
  population st !! best is_better (members st) = Some (incumbent st)
  ∧ incumbent st ∈ population st.
Proof.
  unfold ssga_init.
  destruct (Population_init sol_eq own_settings meths_ch fuel sol w)
    as [[[pop|e] w']|]; [|done..].
  destruct (scheduler_init _ _ _ _ _ _) as [st1|e]; [|done].
  destruct (getitem (population st1) (Z.of_nat (best is_better (members st1))))
    as [a|e] eqn:Hget; [|done].
  intros [= <-]. apply getitem_nat_lookup in Hget.
  change (members (set_incumbent a st1)) with (members st1). simpl.
  split; [exact Hget|]. by eapply list_elem_of_lookup_2.
Qed.

End SSGAFacts.

Section SSGAInit.

Context {Solution Par Sched World : Type}.
Variable is_better : Solution → Solution → bool.
Variable sol_eq : Solution → Solution → bool.
Variable scheduler_init :
  list Solution → list nat → nat → list (option (Method Solution Par World)) →
  OwnSettings → World → res (SSGA Solution Sched World).


End SSGAInit.



(** The theorem on the incumbent for two members of objective 5: the
    incumbent is the object at address 1, which is slot 0 of the
    population. *)
Lemma incumbent_aliases_population_slot_witness :
  let st0 := mkSSGA [0; 5; 5] [1%nat; 2%nat] 1%nat () [0; 50] in
  ssga_init Demo.is_better Demo.sol_eq Demo.scheduler_init
            (mkOwnSettings 2 1 false 0%Q 0%Q) 3 0
            [Demo.construct 5] (Demo.shift 3) None [0; 50] = Some (Ok st0)
  ∧ population st0 !! best Demo.is_better (members st0) = Some (incumbent st0)
  ∧ incumbent st0 ∈ population st0.
Proof.
  cbv zeta. split; [reflexivity|].
  exact (incumbent_aliases_population_slot Demo.is_better Demo.sol_eq
           Demo.scheduler_init (mkOwnSettings 2 1 false 0%Q 0%Q) 3 0
           [Demo.construct 5] (Demo.shift 3) None [0; 50]
           (mkSSGA [0; 5; 5] [1%nat; 2%nat] 1%nat () [0; 50]) eq_refl).
Defined.

(** ** Settings *)

Section SeedFacts.

Context {blob : Type}.


(** A seed of 0 in the settings: the number drawn is written back and
    both generators are seeded with it. *)
Lemma seed_random_generators_fresh (draw : Z) (g : Globals blob) (v : value) :
  settings g !! "seed" = Some v →
  py_eq_zero v = true →
  0 ≤ draw < INT32_MAX →
  seed_random_generators draw g =
  (Ok (), mkGlobals (<["seed" := VInt draw]> (settings g)) (files g)
                    (Some draw) (Some (VInt draw))).
Proof.
  intros Hseed Hzero Hdraw. unfold seed_random_generators.
  rewrite Hseed, Hzero. simpl.
  replace ((0 <=? draw) && (draw <? 2 ^ 32)) with true; [done|].
  symmetry. apply andb_true_iff. unfold INT32_MAX in Hdraw. split; lia.
Qed.

End SeedFacts.

(** C4 on the code.  [np.random.randint(np.iinfo(np.int32).max)] draws from
    0 to [INT32_MAX - 1], 0 included.  With a configured seed of 0 and a
    draw of 0 the seed written back is 0 again, and both generators are
    seeded with 0. *)
Theorem seed_zero_draw_zero_stays_zero :
  let g : Globals () := mkGlobals {["seed" := VInt 0]} ∅ None None in
  0 ≤ 0 < INT32_MAX
  ∧ (seed_random_generators 0 g).1 = Ok ()
  ∧ settings (seed_random_generators 0 g).2 !! "seed" = Some (VInt 0)
  ∧ np_seed (seed_random_generators 0 g).2 = Some 0
  ∧ py_seed (seed_random_generators 0 g).2 = Some (VInt 0).
Proof.
  cbv zeta. split; [unfold INT32_MAX; lia|].
  rewrite (seed_random_generators_fresh 0 _ (VInt 0)).
  - simpl. rewrite lookup_insert_eq. done.
  - simpl. apply lookup_singleton_eq.
  - reflexivity.
  - unfold INT32_MAX; lia.
Qed.

Section SaveLoad.

Context {blob : Type}.
Variable pickle_dumps : gmap string value → blob.
Variable pickle_loads : blob → option (gmap string value).

(** What [pickle] promises: an object is loaded back as it was dumped. *)
Hypothesis pickle_roundtrip : ∀ ns, pickle_loads (pickle_dumps ns) = Some ns.



End SaveLoad.



(** ** The theorems on the queries, at concrete populations *)

(** The objectives [5; 1; 9; 1; 9] of a minimisation: [best()] is 1 and
    [worst()] is 2, the lower of the tied indices. *)
Lemma best_worst_lowest_extreme_witness :
  Demo.tied_pop ≠ []
  ∧ best Demo.is_better Demo.tied_pop = 1%nat
  ∧ worst Demo.is_worse Demo.tied_pop = 2%nat
  ∧ (∀ j xj, Demo.tied_pop !! j = Some xj →
       (∀ i xi, Demo.tied_pop !! i = Some xi → Demo.is_worse xj xi = false) →
       (best Demo.is_better Demo.tied_pop ≤ j)%nat).
Proof.
  split; [discriminate|]. split; [reflexivity|]. split; [reflexivity|].
  destruct (best_worst_lowest_extreme Demo.is_better Demo.is_worse
              Demo_better_irrefl Demo_better_trans Demo_better_negtrans
              Demo_worse_better Demo.tied_pop)
    as [(xb & _ & _ & Hmin) _].
  - discriminate.
  - exact Hmin.
Defined.

(** The same population and a solution of objective 9. *)
Lemma duplicates_of_exact_witness :
  duplicates_of Demo.sol_eq Demo.tied_pop 9 = [2; 4]%nat
  ∧ StronglySorted lt (duplicates_of Demo.sol_eq Demo.tied_pop 9).
Proof.
  split; [reflexivity|].
  exact (proj2 (duplicates_of_exact Demo.sol_eq Demo.tied_pop 9)).
Defined.

(** * Further properties of the population *)

Section InitFills.

Context {Solution Par World : Type}.
Variable sol_eq : Solution → Solution → bool.
Variable own_settings : OwnSettings.
Variable meths_ch : list (Method Solution Par World).

Hypothesis dupelim_off : mh_dupelim own_settings = false.
Hypothesis meths_nonempty : meths_ch ≠ [].
Hypothesis never_terminate :
  ∀ m s p w, m ∈ meths_ch → terminate (func m s p Result_new w).1.2 = false.

Lemma init_loop_fills (n : nat) :
  ∀ (self : list Solution) (pos : nat) (sol : Solution) (w : World),
    mh_pop_size own_settings - Z.of_nat (length self) ≤ Z.of_nat n →
    ∃ pop w',
      init_loop sol_eq own_settings meths_ch (S n) self pos sol w
        = Some (Ok pop, w')
      ∧ self `prefix_of` pop
      ∧ Z.of_nat (length pop)
        = Z.max (Z.of_nat (length self)) (mh_pop_size own_settings).
Proof using dupelim_off meths_nonempty never_terminate.
  induction n as [|n IH]; intros self pos sol w Hn; rewrite init_loop_S.
  - rewrite (proj2 (Z.ltb_ge _ _)) by lia.
    exists self, w. repeat split; [done|lia].
  - destruct (Z.ltb_spec (Z.of_nat (length self)) (mh_pop_size own_settings))
      as [Hlt|Hge]; [|exists self, w; repeat split; [done|lia]].
    destruct (cycle_next_elem meths_ch pos meths_nonempty) as (m & -> & Hm).
    rewrite dupelim_off.
    pose proof (never_terminate m (copy sol) (par m) w Hm) as Hterm.
    destruct (func m (copy sol) (par m) Result_new w) as [[sol' r] w1].
    cbn [andb fst snd] in *. rewrite Hterm.
    destruct (IH (self ++ [sol']) (S pos) sol' w1)
      as (pop & w' & Heq & Hpre & Hlen).
    { rewrite length_app. simpl. lia. }
    rewrite length_app in Hlen. simpl in Hlen.
    exists pop, w'. split; [exact Heq|]. split; [|lia].
    etrans; [|exact Hpre]. by apply prefix_app_r.
Qed.

(** Without duplicate elimination and without a construction method that
    signals termination, the population is filled: after at most
    [mh_pop_size] rounds it holds exactly [mh_pop_size] members (none for a
    negative size). *)
Theorem init_fills_population (sol : Solution) (w : World) :
  ∃ pop w',
    Population_init sol_eq own_settings meths_ch
                    (S (Z.to_nat (mh_pop_size own_settings))) sol w
      = Some (Ok pop, w')
    ∧ Z.of_nat (length pop) = Z.max 0 (mh_pop_size own_settings).
Proof using dupelim_off meths_nonempty never_terminate.
  destruct (init_loop_fills (Z.to_nat (mh_pop_size own_settings)) [] 0%nat sol w)
    as (pop & w' & Heq & _ & Hlen).
  { simpl. lia. }
  exists pop, w'. split; [exact Heq|]. simpl in Hlen. lia.
Qed.

End InitFills.

Lemma init_fills_population_witness :
  ∃ pop w',
    Population_init Demo.sol_eq (mkOwnSettings 3 10 false 1%Q (1 # 10)%Q)
                    [Demo.construct 7; Demo.construct 8] 4 0 ([] : list Z)
      = Some (Ok pop, w')
    ∧ Z.of_nat (length pop) = 3.
Proof.
  refine (init_fills_population Demo.sol_eq
            (mkOwnSettings 3 10 false 1%Q (1 # 10)%Q)
            [Demo.construct 7; Demo.construct 8] eq_refl _ _ 0 []).
  - discriminate.
  - intros m s p w Hm.
    apply elem_of_cons in Hm as [->|Hm]; [reflexivity|].
    apply list_elem_of_singleton in Hm as ->. reflexivity.
Defined.

Section InitDistinct.

Context {Solution Par World : Type}.
Variable sol_eq : Solution → Solution → bool.
Variable own_settings : OwnSettings.
Variable meths_ch : list (Method Solution Par World).

Hypothesis dupelim_set : mh_dupelim own_settings = true.

Lemma pairwise_distinct_snoc (self : list Solution) (x : Solution) :
  pairwise_distinct sol_eq self →
  duplicates_of sol_eq self x = [] →
  pairwise_distinct sol_eq (self ++ [x]).
Proof.
  intros Hself Hdup i j xi xj Hij Hi Hj.
  apply lookup_app_Some in Hj as [Hj|[Hlen Hj]].
  - apply (Hself i j xi xj Hij); [|done].
    apply lookup_app_Some in Hi as [Hi|[Hlen _]]; [done|].
    apply lookup_lt_Some in Hj. lia.
  - apply list_lookup_singleton_Some in Hj as [Hj0 <-].
    apply lookup_app_Some in Hi as [Hi|[Hlen' _]]; [|lia].
    destruct (sol_eq xi x) eqn:E; [|done].
    assert (Hd : i ∈ duplicates_of sol_eq self x).
    { apply duplicates_of_elem. by exists xi. }
    rewrite Hdup in Hd. by apply elem_of_nil in Hd.
Qed.

Lemma init_loop_distinct (fuel : nat) :
  ∀ (self : list Solution) (pos : nat) (sol : Solution) (w : World)
    (pop : list Solution) (w' : World),
    pairwise_distinct sol_eq self →
    init_loop sol_eq own_settings meths_ch fuel self pos sol w
      = Some (Ok pop, w') →
    pairwise_distinct sol_eq pop.
Proof using dupelim_set.
  induction fuel as [|fuel IH]; intros self pos sol w pop w' Hself; [done|].
  rewrite init_loop_S.
  destruct (Z.of_nat (length self) <? mh_pop_size own_settings);
    [|by intros [= <- <-]].
  destruct (cycle_next meths_ch pos) as [m|]; [|done].
  rewrite dupelim_set.
  destruct (func m (copy sol) (par m) Result_new w) as [[sol' r] w1].
  cbn [andb].
  destruct (bool_decide (duplicates_of sol_eq self sol' = [])) eqn:E; cbn [negb].
  - apply bool_decide_eq_true_1 in E.
    pose proof (pairwise_distinct_snoc self sol' Hself E) as Hsnoc.
    destruct (terminate r); [by intros [= <- <-]|]. by apply IH.
  - by apply IH.
Qed.

(** With [mh_dupelim] set, a population that the initialisation returns
    holds no two members that are equal ([==]), however many rounds it
    took and whether or not it was cut short by a termination signal. *)
Theorem init_dupelim_no_duplicates (fuel : nat) (sol : Solution) (w : World)
    (pop : list Solution) (w' : World) :
  Population_init sol_eq own_settings meths_ch fuel sol w = Some (Ok pop, w') →
  pairwise_distinct sol_eq pop.
Proof using dupelim_set.
  apply init_loop_distinct. intros i j xi xj _ Hi. by rewrite lookup_nil in Hi.
Qed.

End InitDistinct.

Lemma init_dupelim_no_duplicates_witness :
  Population_init Demo.sol_eq (mkOwnSettings 3 10 true 1%Q (1 # 10)%Q)
                  [Demo.construct_next] 5 0 [4; 6; 4; 7; 9]
    = Some (Ok [4; 6; 7], [9])
  ∧ pairwise_distinct Demo.sol_eq [4; 6; 7].
Proof.
  split; [reflexivity|].
  exact (init_dupelim_no_duplicates Demo.sol_eq
           (mkOwnSettings 3 10 true 1%Q (1 # 10)%Q) [Demo.construct_next]
           eq_refl 5 0 [4; 6; 4; 7; 9] [4; 6; 7] [9] eq_refl).
Defined.

Section InitEdges.

Context {Solution Par World : Type}.
Variable sol_eq : Solution → Solution → bool.

(** The initialisation at its edges.  For [mh_pop_size <= 0] the loop is
    not entered: the population is empty, no construction method is
    called and the generators are untouched, even with no method at all.
    For [mh_pop_size >= 1] and an empty list of construction methods the
    first [next(meths_cycle)] raises [StopIteration]. *)
Theorem init_edge_cases (own_settings : OwnSettings)
    (meths_ch : list (Method Solution Par World)) (fuel : nat)
    (sol : Solution) (w : World) :
  (mh_pop_size own_settings ≤ 0 →
   Population_init sol_eq own_settings meths_ch (S fuel) sol w
     = Some (Ok [], w))
  ∧ (1 ≤ mh_pop_size own_settings →
     Population_init sol_eq own_settings
                     ([] : list (Method Solution Par World)) (S fuel) sol w
       = Some (Raise StopIteration, w)).
Proof.
  unfold Population_init. rewrite !init_loop_S. split; intros Hsize.
  - by rewrite (proj2 (Z.ltb_ge _ _)) by (simpl; lia).
  - by rewrite (proj2 (Z.ltb_lt _ _)) by (simpl; lia).
Qed.

End InitEdges.

Lemma init_edge_cases_witness :
  Population_init Demo.sol_eq (mkOwnSettings 0 10 true 1%Q (1 # 10)%Q)
                  [Demo.construct 7] 1 0 [3] = Some (Ok [], [3])
  ∧ Population_init Demo.sol_eq (mkOwnSettings 4 10 true 1%Q (1 # 10)%Q)
                    ([] : list Demo.method) 1 0 [3]
    = Some (Raise StopIteration, [3]).
Proof.
  split.
  - refine (proj1 (init_edge_cases Demo.sol_eq
                     (mkOwnSettings 0 10 true 1%Q (1 # 10)%Q)
                     [Demo.construct 7] 0 0 [3]) _). simpl. lia.
  - refine (proj2 (init_edge_cases (Par := ()) Demo.sol_eq
                     (mkOwnSettings 4 10 true 1%Q (1 # 10)%Q)
                     [] 0 0 [3]) _). simpl. lia.
Defined.

(** * Further properties of the queries *)

Section ScanEdges.

Context {Solution : Type}.
Variable is_better : Solution → Solution → bool.
Variable is_worse : Solution → Solution → bool.

Lemma scan_loop_tied (cmp : Solution → Solution → bool) (pop : list Solution)
    (k : nat) :
  (∀ x y, x ∈ pop → y ∈ pop → cmp x y = false) →
  ∀ s, fold_left (scan_step cmp pop) (seq s k) 0%nat = 0%nat.
Proof.
  intros Htied. induction k as [|k IH]; intros s; simpl; [done|].
  replace (scan_step cmp pop 0 s) with 0%nat; [apply IH|].
  unfold scan_step.
  destruct (pop !! s) as [x|] eqn:Hs; [|done].
  destruct (pop !! 0%nat) as [c|] eqn:Hc; [|done].
  rewrite Htied; [done| |]; by eapply list_elem_of_lookup_2.
Qed.

(** [best()] and [worst()] return an index of the population whenever
    there is a member, whatever the comparisons of the solution class are;
    when no member is better (worse) than another, they return 0. *)
Theorem best_worst_index (pop : list Solution) :
  (pop ≠ [] →
   (best is_better pop < length pop)%nat
   ∧ (worst is_worse pop < length pop)%nat)
  ∧ ((∀ x y, x ∈ pop → y ∈ pop → is_better x y = false) →
     best is_better pop = 0%nat)
  ∧ ((∀ x y, x ∈ pop → y ∈ pop → is_worse x y = false) →
     worst is_worse pop = 0%nat).
Proof.
  split; [|split].
  - intros Hne. split; by apply scan_lt_length.
  - intros H. by apply scan_loop_tied.
  - intros H. by apply scan_loop_tied.
Qed.

End ScanEdges.

Lemma best_worst_index_witness :
  (best Demo.is_better Demo.tied_pop < length Demo.tied_pop)%nat
  ∧ best Demo.is_better [5; 5; 5] = 0%nat.
Proof.
  split.
  - refine (proj1 (proj1 (best_worst_index Demo.is_better Demo.is_worse
                            Demo.tied_pop) _)). discriminate.
  - refine (proj1 (proj2 (best_worst_index Demo.is_better Demo.is_worse
                            [5; 5; 5])) _).
    intros x y Hx Hy.
    assert (Hall : ∀ z : Z, z ∈ [5; 5; 5] → z = 5).
    { intros z Hz. repeat (apply elem_of_cons in Hz as [->|Hz]; [done|]).
      by apply elem_of_nil in Hz. }
    rewrite (Hall x Hx), (Hall y Hy). reflexivity.
Defined.

Section SelectionEdges.

Context {Solution World : Type}.
Variable is_better : Solution → Solution → bool.
Variable randint : Z → Z → World → Z * World.

Lemma selection_empty_range (own_settings : OwnSettings)
    (pop : list Solution) (w : World) :
  (length pop < 2)%nat →
  selection is_better randint own_settings pop w = (Raise ValueError, w).
Proof.
  intros Hlen. unfold selection, py_randint.
  by rewrite (proj2 (Z.ltb_lt _ _)) by lia.
Qed.

(** On fewer than two members the range [1, len(self) - 1] is empty:
    [selection()] raises [ValueError] at its first draw and leaves the
    generator as it was. *)
Theorem selection_short_population (own_settings : OwnSettings)
    (pop : list Solution) (w : World) :
  (length pop < 2)%nat →
  selection is_better randint own_settings pop w = (Raise ValueError, w).
Proof. apply selection_empty_range. Qed.

Hypothesis randint_range : ∀ a b w, a ≤ b → a ≤ (randint a b w).1 ≤ b.

Lemma selection_loop_in_range (pop : list Solution) (n : nat) :
  ∀ (best : Z) (w : World),
    1 ≤ best ≤ Z.of_nat (length pop) - 1 →
    ∃ i w', selection_loop is_better randint pop n best w = (Ok i, w')
            ∧ 1 ≤ i ≤ Z.of_nat (length pop) - 1.
Proof using randint_range.
  induction n as [|n IH]; intros best w Hb; simpl; [by exists best, w|].
  unfold py_randint.
  destruct (Z.ltb_spec (Z.of_nat (length pop) - 1) 1) as [|Hhi]; [lia|].
  pose proof (randint_range 1 (Z.of_nat (length pop) - 1) w Hhi) as Hx.
  destruct (randint 1 (Z.of_nat (length pop) - 1) w) as [x w1]. simpl in Hx.
  destruct (getitem_in_range pop x ltac:(lia)) as (vx & -> & _).
  destruct (getitem_in_range pop best ltac:(lia)) as (vb & -> & _).
  apply IH. destruct (is_better vx vb); lia.
Qed.

(** On two members or more [selection()] returns an index from 1 to
    [len(self) - 1], whatever [is_better] answers and whatever the
    tournament size is; on exactly two members it returns index 1. *)
Theorem selection_index_in_range (own_settings : OwnSettings)
    (pop : list Solution) (w : World) :
  (2 ≤ length pop)%nat →
  ∃ i w', selection is_better randint own_settings pop w = (Ok i, w')
          ∧ 1 ≤ i ≤ Z.of_nat (length pop) - 1
          ∧ (length pop = 2%nat → i = 1).
Proof using randint_range.
  intros Hlen. unfold selection, py_randint.
  destruct (Z.ltb_spec (Z.of_nat (length pop) - 1) 1) as [|Hhi]; [lia|].
  pose proof (randint_range 1 (Z.of_nat (length pop) - 1) w Hhi) as Hx.
  destruct (randint 1 (Z.of_nat (length pop) - 1) w) as [x w1]. simpl in Hx.
  destruct (selection_loop_in_range pop
              (Z.to_nat (mh_tournament_size own_settings - 1)) x w1 Hx)
    as (i & w' & Hsel & Hi).
  exists i, w'. split; [done|]. split; [done|]. lia.
Qed.

End SelectionEdges.

Lemma selection_short_population_witness :
  selection Demo.is_better Demo.randint Demo.tournament_settings [5] [3; 1]
    = (Raise ValueError, [3; 1]).
Proof.
  refine (selection_short_population Demo.is_better Demo.randint
            Demo.tournament_settings [5] [3; 1] _). simpl. lia.
Defined.

Lemma selection_index_in_range_witness :
  ∃ i w', selection Demo.is_better Demo.randint Demo.tournament_settings
                    [5; 3] [3; 1; 4] = (Ok i, w')
          ∧ 1 ≤ i ≤ Z.of_nat (length [5; 3]) - 1
          ∧ (length [5; 3] = 2%nat → i = 1).
Proof.
  refine (selection_index_in_range Demo.is_better Demo.randint
            Demo_randint_range Demo.tournament_settings [5; 3] [3; 1; 4] _).
  simpl. lia.
Defined.

(** * Further properties of the steady-state genetic algorithm *)

Section SSGASteps.

Context {Solution Par Sched World : Type}.
Variable is_better : Solution → Solution → bool.
Variable is_worse : Solution → Solution → bool.

Abbreviation state := (SSGA Solution Sched World).
Abbreviation method := (Method Solution Par World).

(** After the end of an iteration the child is not better than the
    incumbent. *)
Theorem run_finish_incumbent_not_beaten (p1 : nat) (st st' : state) :
  (∀ x, is_better x x = false) →
  run_finish is_better is_worse p1 st = Ok st' →
  ∃ v1 vi,
    heap st' !! p1 = Some v1
    ∧ heap st' !! incumbent st' = Some vi
    ∧ is_better v1 vi = false.
Proof.
  intros Hirr. unfold run_finish, deref.
  destruct (getitem (population st) _) as [aw|e]; [|done].
  destruct (heap st !! p1) as [v1|]; [|done].
  simpl.
  destruct (<[aw:=v1]> (heap st) !! p1) as [v1'|] eqn:H1; [|done].
  destruct (<[aw:=v1]> (heap st) !! incumbent st) as [vi|] eqn:Hi; [|done].
  intros [= <-].
  destruct (is_better v1' vi) eqn:E; simpl.
  - exists v1', v1'. by rewrite H1.
  - exists v1', vi. by rewrite H1, Hi.
Qed.

End SSGASteps.

Lemma run_finish_incumbent_not_beaten_witness :
  ∃ v1 vi,
    [0; 5; 3; 3] !! 3%nat = Some v1
    ∧ [0; 5; 3; 3] !! 3%nat = Some vi
    ∧ Demo.is_better v1 vi = false.
Proof.
  exact (run_finish_incumbent_not_beaten Demo.is_better Demo.is_worse 3
           (mkSSGA [0; 5; 9; 3] [1%nat; 2%nat] 1%nat () ([] : list Z))
           (mkSSGA [0; 5; 3; 3] [1%nat; 2%nat] 3%nat () [])
           Demo_better_irrefl eq_refl).
Defined.

(** * Further properties of the settings *)

Section SeedMore.

Context {blob : Type}.

(** A configured seed other than 0 that NumPy takes (an integer from 1 to
    [2**32 - 1]) is kept: the namespace is unchanged, both generators are
    seeded with it whatever would have been drawn, and seeding again
    changes nothing. *)
Theorem seed_nonzero_is_kept (draw draw' : Z) (g : Globals blob) (z : Z) :
  settings g !! "seed" = Some (VInt z) →
  0 < z < 2 ^ 32 →
  seed_random_generators draw g
    = (Ok (), mkGlobals (settings g) (files g) (Some z) (Some (VInt z)))
  ∧ seed_random_generators draw' (seed_random_generators draw g).2
    = seed_random_generators draw g.
Proof.
  intros Hseed Hz.
  assert (Hone : ∀ d (h : Globals blob),
            settings h !! "seed" = Some (VInt z) →
            seed_random_generators d h
            = (Ok (), mkGlobals (settings h) (files h) (Some z) (Some (VInt z)))).
  { intros d h Hh. unfold seed_random_generators. rewrite Hh.
    cbn [py_eq_zero]. rewrite (proj2 (Z.eqb_neq z 0)) by lia. simpl.
    replace ((0 <=? z) && (z <? 2 ^ 32)) with true; [done|].
    symmetry. apply andb_true_iff. split; lia. }
  split; [by apply Hone|].
  rewrite (Hone draw g Hseed). simpl. by rewrite Hone.
Qed.

(** Where seeding fails, nothing has changed: without an option [seed]
    the access raises [AttributeError]; with an integer seed that is
    negative or above [2**32 - 1], [np.random.seed] raises [ValueError]
    before [random.seed] is called, so neither generator is seeded. *)
Theorem seed_random_generators_errors (draw : Z) (g : Globals blob) :
  (settings g !! "seed" = None →
   seed_random_generators draw g = (Raise AttributeError, g))
  ∧ (∀ z, settings g !! "seed" = Some (VInt z) →
          z < 0 ∨ 2 ^ 32 ≤ z →
          seed_random_generators draw g = (Raise ValueError, g)).
Proof.
  unfold seed_random_generators. split.
  - by intros ->.
  - intros z -> Hz. cbn [py_eq_zero].
    rewrite (proj2 (Z.eqb_neq z 0)) by lia. simpl.
    replace ((0 <=? z) && (z <? 2 ^ 32)) with false; [done|].
    symmetry. apply andb_false_iff. lia.
Qed.

End SeedMore.

Lemma seed_nonzero_is_kept_witness :
  seed_random_generators (blob := ()) 42
    (mkGlobals {["seed" := VInt 7]} ∅ None None)
  = (Ok (), mkGlobals {["seed" := VInt 7]} ∅ (Some 7) (Some (VInt 7))).
Proof.
  refine (proj1 (seed_nonzero_is_kept 42 43
                   (mkGlobals {["seed" := VInt 7]} ∅ None None) 7 _ _)).
  - apply lookup_singleton_eq.
  - lia.
Defined.

Lemma seed_random_generators_errors_witness :
  seed_random_generators (blob := ()) 42 (mkGlobals ∅ ∅ None None)
    = (Raise AttributeError, mkGlobals ∅ ∅ None None)
  ∧ seed_random_generators (blob := ()) 42
      (mkGlobals {["seed" := VInt (-5)]} ∅ None (Some (VInt 3)))
    = (Raise ValueError,
       mkGlobals {["seed" := VInt (-5)]} ∅ None (Some (VInt 3))).
Proof.
  split.
  - refine (proj1 (seed_random_generators_errors 42
                     (mkGlobals ∅ ∅ None None)) _). apply lookup_empty.
  - refine (proj2 (seed_random_generators_errors 42
                     (mkGlobals {["seed" := VInt (-5)]} ∅ None (Some (VInt 3))))
                  (-5) _ _).
    + apply lookup_singleton_eq.
    + lia.
Defined.

Section SaveLoadMore.

Context {blob : Type}.
Variable pickle_dumps : gmap string value → blob.
Variable pickle_loads : blob → option (gmap string value).

Hypothesis pickle_roundtrip : ∀ ns, pickle_loads (pickle_dumps ns) = Some ns.


End SaveLoadMore.


(** ** The class [OwnSettings] *)

(** An option that the object does not hold itself is taken from the
    global settings at the first access and kept: later accesses return
    the same value whatever the global settings have become, and the
    object is not changed again. *)
Theorem OwnSettings_getattr_keeps_first (item : string)
    (self settings settings' : gmap string value) (v : value) :
  self !! item = None →
  settings !! item = Some v →
  (OwnSettings_getattr item self settings).1 = Ok v
  ∧ OwnSettings_getattr item (OwnSettings_getattr item self settings).2 settings'
    = (Ok v, (OwnSettings_getattr item self settings).2).
Proof.
  intros Hself Hglob. unfold OwnSettings_getattr.
  rewrite Hself, Hglob. simpl. by rewrite lookup_insert_eq.
Qed.

(** An option of the object's own dictionary hides the global one and the
    access changes nothing; an option that is in neither raises
    [AttributeError] and changes nothing; an access never changes another
    option of the object. *)
Theorem OwnSettings_getattr_cases (item other : string)
    (self settings : gmap string value) :
  (∀ v, self !! item = Some v →
        OwnSettings_getattr item self settings = (Ok v, self))
  ∧ (self !! item = None → settings !! item = None →
     OwnSettings_getattr item self settings = (Raise AttributeError, self))
  ∧ (other ≠ item →
     (OwnSettings_getattr item self settings).2 !! other = self !! other).
Proof.
  unfold OwnSettings_getattr. repeat split.
  - by intros v ->.
  - by intros -> ->.
  - intros Hne. destruct (self !! item); [done|].
    destruct (settings !! item); [|done]. simpl. by rewrite lookup_insert_ne.
Qed.

Lemma OwnSettings_getattr_keeps_first_witness :
  (OwnSettings_getattr "mh_pop_size" (OwnSettings_new None)
     {["mh_pop_size" := VInt 100]}).1 = Ok (VInt 100)
  ∧ OwnSettings_getattr "mh_pop_size"
      (OwnSettings_getattr "mh_pop_size" (OwnSettings_new None)
         {["mh_pop_size" := VInt 100]}).2 {["mh_pop_size" := VInt 5]}
    = (Ok (VInt 100),
       (OwnSettings_getattr "mh_pop_size" (OwnSettings_new None)
          {["mh_pop_size" := VInt 100]}).2).
Proof.
  refine (OwnSettings_getattr_keeps_first "mh_pop_size" (OwnSettings_new None)
            {["mh_pop_size" := VInt 100]} {["mh_pop_size" := VInt 5]}
            (VInt 100) _ _).
  - apply lookup_empty.
  - apply lookup_singleton_eq.
Defined.

Lemma OwnSettings_getattr_cases_witness :
  OwnSettings_getattr "mh_pop_size"
    (OwnSettings_new (Some {["mh_pop_size" := VInt 20]}))
    {["mh_pop_size" := VInt 100]}
  = (Ok (VInt 20), OwnSettings_new (Some {["mh_pop_size" := VInt 20]})).
Proof.
  refine (proj1 (OwnSettings_getattr_cases "mh_pop_size" "seed"
                   (OwnSettings_new (Some {["mh_pop_size" := VInt 20]}))
                   {["mh_pop_size" := VInt 100]}) (VInt 20) _).
  apply lookup_singleton_eq.
Defined.

(** ** [get_settings_as_str] *)

Lemma string_app_nil_r (a : string) : (a +:+ "")%string = a.
Proof.
  induction a as [|c a IH]; [done|].
  change (String c a +:+ "")%string with (String c (a +:+ ""))%string.
  by rewrite IH.
Qed.

Lemma string_app_assoc (a b c : string) :
  ((a +:+ b) +:+ c)%string = (a +:+ (b +:+ c))%string.
Proof.
  induction a as [|x a IH]; [done|].
  change (String x ((a +:+ b) +:+ c) = String x (a +:+ (b +:+ c)))%string.
  by rewrite IH.
Qed.

Lemma key_le_total : Total key_le.
Proof. intros a b. unfold key_le. apply String.leb_total. Qed.

(** The text starts with the heading and has one line [name=value] for
    each option of the namespace, in the order of the names. *)
Theorem get_settings_as_str_lines {blob : Type} (str_of : value → string)
    (g : Globals blob) :
  get_settings_as_str str_of g
  = ((newline +:+ "settings:" +:+ newline)
     +:+ foldr (λ kv s, settings_line str_of kv +:+ s) ""
               (sorted_items (settings g)))%string
  ∧ (∀ k v, (k, v) ∈ sorted_items (settings g) ↔ settings g !! k = Some v)
  ∧ NoDup (sorted_items (settings g)).*1
  ∧ Sorted key_le (sorted_items (settings g))
  ∧ length (sorted_items (settings g)) = size (settings g).
Proof.
  split; [|split; [|split; [|split]]].
  - unfold get_settings_as_str.
    generalize (newline +:+ "settings:" +:+ newline)%string as h.
    induction (sorted_items (settings g)) as [|kv l IH]; intros h;
      cbn [fold_left foldr].
    + by rewrite string_app_nil_r.
    + by rewrite IH, string_app_assoc.
  - intros k v. unfold sorted_items.
    rewrite merge_sort_Permutation. apply elem_of_map_to_list.
  - unfold sorted_items. rewrite merge_sort_Permutation.
    apply NoDup_fst_map_to_list.
  - apply (@Sorted_merge_sort _ key_le _ key_le_total).
  - unfold sorted_items. rewrite merge_sort_Permutation.
    apply length_map_to_list.
Qed.

(** * The travelling salesman demo *)

Lemma tsp_item_in_range {A} (l : list A) (i : Z) :
  0 ≤ i < Z.of_nat (length l) →
  ∃ v, TSP.item l i = TSP.Done v ∧ l !! Z.to_nat i = Some v.
Proof.
  intros Hi. destruct (getitem_in_range l i Hi) as (v & Hget & Hv).
  exists v. unfold TSP.item. by rewrite Hget.
Qed.

Lemma tsp_slice_bounds (len p1 p2 : Z) :
  0 ≤ len →
  let lo := Z.to_nat (TSP.slice_bound len p1) in
  let hi := Nat.max lo (Z.to_nat (TSP.slice_bound len (p2 + 1))) in
  (lo ≤ hi)%nat ∧ (hi ≤ Z.to_nat len)%nat.
Proof.
  intros Hlen. cbv zeta. unfold TSP.slice_bound.
  destruct (Z.ltb_spec p1 0), (Z.ltb_spec (p2 + 1) 0); lia.
Qed.

(** A 2-opt move rearranges the tour: the tour after the move visits the
    cities of the tour before it, each as often, whatever the two positions
    are; the instance and the flag of the cached objective are untouched;
    and the same move applied once more gives the tour back. *)
Theorem apply_2_opt_move_permutes (s : TSP.TSPSolution) (move : Z * Z) :
  TSP.x (TSP.apply_2_opt_move s move) ≡ₚ TSP.x s
  ∧ length (TSP.x (TSP.apply_2_opt_move s move)) = length (TSP.x s)
  ∧ TSP.inst (TSP.apply_2_opt_move s move) = TSP.inst s
  ∧ TSP.obj_val_valid (TSP.apply_2_opt_move s move) = TSP.obj_val_valid s
  ∧ TSP.apply_2_opt_move (TSP.apply_2_opt_move s move) move = s.
Proof.
  destruct move as [p1 p2]. destruct s as [i xs valid].
  unfold TSP.apply_2_opt_move. cbn [TSP.x TSP.inst TSP.obj_val_valid].
  destruct (tsp_slice_bounds (Z.of_nat (length xs)) p1 p2 ltac:(lia))
    as [Hlo Hhi].
  cbv zeta in Hlo, Hhi. rewrite Nat2Z.id in Hhi.
  set (lo := Z.to_nat (TSP.slice_bound (Z.of_nat (length xs)) p1)) in *.
  set (hi := Nat.max lo
               (Z.to_nat (TSP.slice_bound (Z.of_nat (length xs)) (p2 + 1)))) in *.
  assert (Hsplit : xs = take lo xs ++ take (hi - lo) (drop lo xs) ++ drop hi xs).
  { rewrite <- (take_drop lo xs) at 1. f_equal.
    rewrite <- (take_drop (hi - lo) (drop lo xs)) at 1. f_equal.
    rewrite drop_drop. f_equal. lia. }
  assert (Hperm : take lo xs ++ reverse (take (hi - lo) (drop lo xs)) ++ drop hi xs
                  ≡ₚ xs).
  { rewrite Hsplit at 4. by rewrite reverse_Permutation. }
  assert (Hlen : length (take lo xs ++ reverse (take (hi - lo) (drop lo xs))
                         ++ drop hi xs) = length xs).
  { by rewrite Hperm. }
  split; [done|]. split; [done|]. split; [done|]. split; [done|].
  rewrite Hlen. fold lo. fold hi. f_equal.
  assert (Hl1 : length (take lo xs) = lo) by (rewrite length_take; lia).
  assert (Hl2 : length (reverse (take (hi - lo) (drop lo xs))) = (hi - lo)%nat).
  { rewrite length_reverse, length_take, length_drop. lia. }
  rewrite (take_app_length' _ _ lo) by done.
  rewrite (drop_app_length' _ _ lo) by done.
  rewrite (take_app_length' _ _ (hi - lo)) by done.
  rewrite reverse_involutive.
  assert (Hd : ∀ l : list Z, drop hi l = drop (hi - lo) (drop lo l)).
  { intros l. rewrite drop_drop. f_equal. lia. }
  rewrite Hd.
  rewrite (drop_app_length' _ _ lo) by done.
  rewrite (drop_app_length' _ _ (hi - lo)) by done.
  by rewrite <- Hsplit.
Qed.

Lemma tsp_dist_valid (i : TSP.TSPInstance) (a b : Z) :
  TSP.square i → 0 ≤ a < TSP.n i → 0 ≤ b < TSP.n i →
  TSP.dist (TSP.distances i) a b = TSP.Done (TSP.D (TSP.distances i) a b).
Proof.
  intros [Hlen Hrows] Ha Hb. unfold TSP.D, TSP.dist.
  destruct (tsp_item_in_range (TSP.distances i) a ltac:(lia))
    as (row & Hrow & Hlook).
  rewrite Hrow. cbn [TSP.bind].
  assert (Hr : Z.of_nat (length row) = TSP.n i).
  { eapply (proj1 (Forall_lookup _ _) Hrows). exact Hlook. }
  destruct (tsp_item_in_range row b ltac:(lia)) as (v & Hv & _).
  by rewrite Hv.
Qed.

Lemma tsp_city_valid (i : TSP.TSPInstance) (xs : list Z) (k : nat) (c : Z) :
  TSP.cities i xs → xs !! k = Some c → 0 ≤ c < TSP.n i.
Proof.
  intros [_ Hall] Hk. eapply (proj1 (Forall_lookup _ _) Hall). exact Hk.
Qed.

Lemma tsp_swap_permutes (xs : list Z) (a b : Z) :
  0 ≤ a < Z.of_nat (length xs) → 0 ≤ b < Z.of_nat (length xs) →
  ∃ xs', TSP.swap xs a b = TSP.Done xs' ∧ xs' ≡ₚ xs.
Proof.
  intros Ha Hb. unfold TSP.swap.
  destruct (tsp_item_in_range xs b Hb) as (xb & -> & Hxb).
  destruct (tsp_item_in_range xs a Ha) as (xa & -> & Hxa).
  cbn [TSP.bind]. unfold TSP.setitem. cbv zeta.
  rewrite !(proj2 (Z.ltb_ge a 0)) by lia.
  replace (Z.of_nat (length xs) <=? a) with false by (symmetry; lia).
  cbn [orb TSP.bind]. rewrite length_insert.
  rewrite !(proj2 (Z.ltb_ge b 0)) by lia.
  replace (Z.of_nat (length xs) <=? b) with false by (symmetry; lia).
  cbn [orb]. eexists. split; [reflexivity|].
  by apply Permutation_insert_swap.
Qed.

Section TSPRandom.

Context {World : Type}.
Variable randint : Z → Z → World → Z * World.
Hypothesis randint_range : ∀ a b w, a ≤ b → a ≤ (randint a b w).1 ≤ b.

Lemma tsp_shaking_loop_permutes (inst_n : Z) (k : nat) :
  ∀ (xs : list Z) (w : World),
    Z.of_nat (length xs) = inst_n → 1 ≤ inst_n →
    ∃ xs' w', TSP.shaking_loop randint inst_n k xs w = (TSP.Done xs', w')
              ∧ xs' ≡ₚ xs.
Proof using randint_range.
  induction k as [|k IH]; intros xs w Hlen Hn; cbn [TSP.shaking_loop].
  - by exists xs, w.
  - unfold py_randint.
    rewrite (proj2 (Z.ltb_ge (inst_n - 1) 0)) by lia.
    pose proof (randint_range 0 (inst_n - 1) w ltac:(lia)) as Ha.
    destruct (randint 0 (inst_n - 1) w) as [a w1]. simpl in Ha.
    pose proof (randint_range 0 (inst_n - 1) w1 ltac:(lia)) as Hb.
    destruct (randint 0 (inst_n - 1) w1) as [b w2]. simpl in Hb.
    destruct (tsp_swap_permutes xs a b ltac:(lia) ltac:(lia))
      as (xs1 & -> & Hperm).
    destruct (IH xs1 w2) as (xs' & w' & Hloop & Hperm').
    { by rewrite Hperm. }
    { done. }
    exists xs', w'. split; [done|]. by rewrite Hperm'.
Qed.

(** [shaking] on a tour of the [n >= 1] cities of the instance returns;
    the tour afterwards visits the same cities, each as often; the cached
    objective is invalidated and the result reports a change. *)
Theorem shaking_permutes (s : TSP.TSPSolution) (par : Z) (result : Result)
    (w : World) :
  Z.of_nat (length (TSP.x s)) = TSP.n (TSP.inst s) →
  1 ≤ TSP.n (TSP.inst s) →
  ∃ s' w',
    TSP.shaking randint s par result w
      = (TSP.Done (s', mkResult true (terminate result)), w')
    ∧ TSP.x s' ≡ₚ TSP.x s
    ∧ TSP.inst s' = TSP.inst s
    ∧ TSP.obj_val_valid s' = false.
Proof using randint_range.
  intros Hlen Hn. unfold TSP.shaking.
  destruct (tsp_shaking_loop_permutes (TSP.n (TSP.inst s)) (Z.to_nat par)
              (TSP.x s) w Hlen Hn) as (xs' & w' & -> & Hperm).
  eexists _, w'. split; [reflexivity|]. done.
Qed.

End TSPRandom.

(** [shaking] at its edges: with [par <= 0] no city is swapped, but the
    cached objective is invalidated and a change is reported all the same;
    with [par >= 1] on an instance without a city, the first
    [random.randint(0, n - 1)] raises [ValueError]. *)
Theorem shaking_edges {World : Type} (randint : Z → Z → World → Z * World)
    (s : TSP.TSPSolution) (par : Z) (result : Result) (w : World) :
  (par ≤ 0 →
   TSP.shaking randint s par result w
   = (TSP.Done (TSP.invalidate s, mkResult true (terminate result)), w))
  ∧ (1 ≤ par → TSP.n (TSP.inst s) ≤ 0 →
     TSP.shaking randint s par result w
     = (TSP.Fail (TSP.Exn ValueError), w)).
Proof.
  unfold TSP.shaking. split.
  - intros Hpar. replace (Z.to_nat par) with 0%nat by lia.
    by destruct s.
  - intros Hpar Hn.
    destruct (Z.to_nat par) as [|k] eqn:E; [lia|].
    cbn [TSP.shaking_loop]. unfold py_randint.
    by rewrite (proj2 (Z.ltb_lt (TSP.n (TSP.inst s) - 1) 0)) by lia.
Qed.

Lemma shaking_permutes_witness :
  ∃ s' w',
    TSP.shaking Demo.randint TSP.tour4 2 Result_new [1; 3; 0; 2]
      = (TSP.Done (s', mkResult true false), w')
    ∧ TSP.x s' ≡ₚ TSP.x TSP.tour4.
Proof.
  destruct (shaking_permutes Demo.randint Demo_randint_range TSP.tour4 2
              Result_new [1; 3; 0; 2] eq_refl)
    as (s' & w' & Hs & Hp & _).
  - simpl. lia.
  - exists s', w'. split; [exact Hs|exact Hp].
Defined.

Lemma shaking_edges_witness :
  TSP.shaking Demo.randint TSP.tour4 0 Result_new [1; 3]
  = (TSP.Done (TSP.invalidate TSP.tour4, mkResult true false), [1; 3]).
Proof.
  refine (proj1 (shaking_edges Demo.randint TSP.tour4 0 Result_new [1; 3]) _).
  lia.
Defined.

Section TSPCosts.

Variable i : TSP.TSPInstance.
Hypothesis Hsym : TSP.symmetric i.

Abbreviation d := (TSP.distances i).
Abbreviation valid := (Forall (λ c, 0 ≤ c < TSP.n i)).

Lemma tsp_path_cost_cons (a : Z) (l : list Z) :
  TSP.path_cost d (a :: l) = TSP.link d [a] l + TSP.path_cost d l.
Proof. destruct l as [|b l]; [done|]. reflexivity. Qed.

Lemma tsp_link_cons_cons (a b : Z) (l l2 : list Z) :
  TSP.link d (a :: b :: l) l2 = TSP.link d (b :: l) l2.
Proof. unfold TSP.link. by rewrite last_cons_cons. Qed.

Lemma tsp_path_cost_app (l1 l2 : list Z) :
  TSP.path_cost d (l1 ++ l2)
  = TSP.path_cost d l1 + TSP.link d l1 l2 + TSP.path_cost d l2.
Proof.
  induction l1 as [|a l1 IH]; [unfold TSP.link; simpl; lia|].
  rewrite <- app_comm_cons, !tsp_path_cost_cons, IH.
  destruct l1 as [|b l1].
  - unfold TSP.link. simpl. destruct (head l2); lia.
  - rewrite tsp_link_cons_cons.
    assert (TSP.link d [a] ((b :: l1) ++ l2) = TSP.link d [a] (b :: l1)) as -> by done.
    lia.
Qed.

Lemma tsp_path_cost_reverse (l : list Z) :
  valid l → TSP.path_cost d (reverse l) = TSP.path_cost d l.
Proof using Hsym.
  induction 1 as [|a l Ha Hl IH]; [done|].
  rewrite reverse_cons, tsp_path_cost_app, IH, (tsp_path_cost_cons a l).
  change (TSP.path_cost d [a]) with 0.
  assert (TSP.link d (reverse l) [a] = TSP.link d [a] l) as ->; [|lia].
  unfold TSP.link. rewrite last_reverse. simpl.
  destruct l as [|b l]; [done|]. simpl.
  apply Forall_cons in Hl as [Hb _]. by apply Hsym.
Qed.

Lemma tsp_link_app_self (l1 l2 : list Z) :
  l1 ≠ [] → l2 ≠ [] →
  TSP.link d (l1 ++ l2) (l1 ++ l2) = TSP.link d l2 l1.
Proof.
  intros H1 H2. unfold TSP.link.
  destruct l1 as [|a l1]; [done|].
  apply last_is_Some in H2 as [z Hz].
  assert (Hl : last ((a :: l1) ++ l2) = Some z).
  { apply last_app_Some. by left. }
  by rewrite Hl, Hz.
Qed.

Lemma tsp_tour_cost_app (l1 l2 : list Z) :
  l1 ≠ [] → l2 ≠ [] →
  TSP.tour_cost d (l1 ++ l2)
  = TSP.path_cost d l1 + TSP.link d l1 l2
    + TSP.path_cost d l2 + TSP.link d l2 l1.
Proof.
  intros H1 H2. unfold TSP.tour_cost.
  by rewrite tsp_path_cost_app, tsp_link_app_self.
Qed.

Lemma tsp_tour_cost_rotate (l1 l2 : list Z) :
  TSP.tour_cost d (l1 ++ l2) = TSP.tour_cost d (l2 ++ l1).
Proof.
  destruct l1 as [|a l1]; [by rewrite app_nil_r|].
  destruct l2 as [|b l2]; [by rewrite app_nil_r|].
  rewrite !tsp_tour_cost_app by done. lia.
Qed.

(** The round trip through [B] reversed and [R] against the one through
    [B] and [R]. *)
Lemma tsp_tour_cost_reverse_part (B R : list Z) (bf bl rh rl : Z) :
  valid B →
  head B = Some bf → last B = Some bl →
  head R = Some rh → last R = Some rl →
  TSP.tour_cost d (reverse B ++ R)
  = TSP.tour_cost d (B ++ R)
    + (TSP.D d rl bl + TSP.D d bf rh - TSP.D d rl bf - TSP.D d bl rh).
Proof using Hsym.
  intros HB Hbf Hbl Hrh Hrl.
  assert (B ≠ []) by (intros ->; done).
  assert (R ≠ []) by (intros ->; done).
  assert (reverse B ≠ []).
  { intros Hr. apply (f_equal length) in Hr.
    rewrite length_reverse in Hr. by destruct B. }
  rewrite !tsp_tour_cost_app by done.
  rewrite tsp_path_cost_reverse by done.
  unfold TSP.link.
  rewrite last_reverse, head_reverse, Hbf, Hbl, Hrh, Hrl. lia.
Qed.

Lemma tsp_tour_cost_reverse_all (B : list Z) :
  valid B → TSP.tour_cost d (reverse B) = TSP.tour_cost d B.
Proof using Hsym.
  intros HB. unfold TSP.tour_cost.
  rewrite tsp_path_cost_reverse by done. f_equal.
  unfold TSP.link. rewrite last_reverse, head_reverse.
  destruct (head B) as [bf|] eqn:Hbf; destruct (last B) as [bl|] eqn:Hbl;
    try done.
  apply Hsym.
  - apply head_Some_elem_of in Hbf.
    by apply (proj1 (Forall_forall _ _) HB).
  - apply last_Some_elem_of in Hbl.
    by apply (proj1 (Forall_forall _ _) HB).
Qed.

End TSPCosts.

Section TSPObjective.

Variable i : TSP.TSPInstance.
Hypothesis Hsq : TSP.square i.

Abbreviation d := (TSP.distances i).

Lemma tsp_row_valid (a b : Z) :
  0 ≤ a < TSP.n i → 0 ≤ b < TSP.n i →
  ∃ row, TSP.item d a = TSP.Done row
         ∧ TSP.item row b = TSP.Done (TSP.D d a b).
Proof using Hsq.
  intros Ha Hb. pose proof (tsp_dist_valid i a b Hsq Ha Hb) as Hd.
  unfold TSP.dist in Hd.
  destruct (TSP.item d a) as [row|e] eqn:Hrow; [|done].
  by exists row.
Qed.

Lemma tsp_item_lookup (xs : list Z) (k : nat) (c : Z) :
  xs !! k = Some c → TSP.item xs (Z.of_nat k) = TSP.Done c.
Proof.
  intros Hk.
  destruct (tsp_item_in_range xs (Z.of_nat k)) as (v & Hv & Hlook).
  { apply lookup_lt_Some in Hk. lia. }
  rewrite Nat2Z.id, Hk in Hlook. by injection Hlook as <-.
Qed.

Lemma tsp_item_last (xs : list Z) (c : Z) :
  last xs = Some c → TSP.item xs (-1) = TSP.Done c.
Proof.
  intros Hlast. rewrite last_lookup in Hlast.
  pose proof (lookup_lt_Some _ _ _ Hlast) as Hlt.
  unfold TSP.item, getitem. cbv zeta.
  change (-1 <? 0) with true. cbn match.
  rewrite (proj2 (Z.ltb_ge (-1 + Z.of_nat (length xs)) 0)) by lia.
  replace (Z.to_nat (-1 + Z.of_nat (length xs))) with (pred (length xs)) by lia.
  by rewrite Hlast.
Qed.

Lemma tsp_path_cost_short (l : list Z) :
  (length l ≤ 1)%nat → TSP.path_cost d l = 0.
Proof. destruct l as [|a [|b l]]; simpl; [done|done|lia]. Qed.

Lemma tsp_calc_loop (xs : list Z) (v : bool) (k : nat) :
  TSP.cities i xs →
  ∀ (j : nat) (acc : Z),
    (j + k + 1 = length xs)%nat →
    TSP.calc_loop (TSP.mkSolution i xs v) k (Z.of_nat j) acc
    = TSP.Done (acc + TSP.path_cost d (drop j xs)).
Proof using Hsq.
  intros Hc. induction k as [|k IH]; intros j acc Hlen; cbn [TSP.calc_loop].
  - rewrite tsp_path_cost_short; [f_equal; lia|].
    rewrite length_drop. lia.
  - cbn [TSP.x TSP.inst].
    destruct (lookup_lt_is_Some_2 xs j ltac:(lia)) as [a Ha].
    destruct (lookup_lt_is_Some_2 xs (S j) ltac:(lia)) as [b Hb].
    rewrite (tsp_item_lookup xs j a Ha). cbn [TSP.bind].
    destruct (tsp_row_valid a b) as (row & -> & Hrow);
      [by eapply tsp_city_valid..|].
    cbn [TSP.bind].
    replace (Z.of_nat j + 1) with (Z.of_nat (S j)) by lia.
    rewrite (tsp_item_lookup xs (S j) b Hb). cbn [TSP.bind].
    rewrite Hrow. cbn [TSP.bind].
    rewrite IH by lia. f_equal.
    rewrite (drop_S xs a j Ha), (drop_S xs b (S j) Hb).
    cbn [TSP.path_cost]. lia.
Qed.

(** [calc_objective] on a tour of the cities of a square instance returns
    the length of the round trip along the tour. *)
Lemma tsp_calc_objective_tour (xs : list Z) (v : bool) :
  TSP.cities i xs → 1 ≤ TSP.n i →
  TSP.calc_objective (TSP.mkSolution i xs v) = TSP.Done (TSP.tour_cost d xs).
Proof using Hsq.
  intros Hc Hn. pose proof Hc as [Hlen Hall].
  unfold TSP.calc_objective. cbn [TSP.x TSP.inst].
  pose proof (tsp_calc_loop xs v (Z.to_nat (TSP.n i - 1)) Hc 0%nat 0
                ltac:(lia)) as Hloop.
  change (Z.of_nat 0) with 0 in Hloop. rewrite Hloop.
  cbn [TSP.bind]. rewrite drop_0.
  assert (Hne : xs ≠ []) by (intros ->; simpl in Hlen; lia).
  destruct (proj2 (last_is_Some xs) Hne) as [a Ha].
  destruct (proj2 (head_is_Some xs) Hne) as [b Hb].
  rewrite (tsp_item_last xs a Ha). cbn [TSP.bind].
  pose proof Hb as Hb0. rewrite head_lookup in Hb0.
  destruct (tsp_row_valid a b) as (row & -> & Hrow).
  { apply last_Some_elem_of in Ha.
    by apply (proj1 (Forall_forall _ _) Hall). }
  { by eapply tsp_city_valid. }
  cbn [TSP.bind].
  pose proof (tsp_item_lookup xs 0 b Hb0) as Hit.
  change (Z.of_nat 0) with 0 in Hit. rewrite Hit. cbn [TSP.bind].
  rewrite Hrow. cbn [TSP.bind].
  unfold TSP.tour_cost, TSP.link. by rewrite Ha, Hb.
Qed.

Lemma tsp_delta_eval_value (xs : list Z) (v : bool) (p1 p2 : Z)
    (x_p1 x_p2 x_prev x_next : Z) :
  TSP.cities i xs →
  0 ≤ p1 < p2 → p2 < TSP.n i →
  ¬ (p1 = 0 ∧ p2 = TSP.n i - 1) →
  xs !! Z.to_nat p1 = Some x_p1 →
  xs !! Z.to_nat p2 = Some x_p2 →
  xs !! Z.to_nat ((p1 - 1) mod TSP.n i) = Some x_prev →
  xs !! Z.to_nat ((p2 + 1) mod TSP.n i) = Some x_next →
  TSP.two_opt_move_delta_eval (TSP.mkSolution i xs v) p1 p2
  = TSP.Done (TSP.D d x_prev x_p2 + TSP.D d x_p1 x_next
              - TSP.D d x_prev x_p1 - TSP.D d x_p2 x_next).
Proof using Hsq.
  intros Hc Hp1 Hp2 Hnot H1 H2 Hprev Hnext. pose proof Hc as [Hlen _].
  unfold TSP.two_opt_move_delta_eval. cbn [TSP.x TSP.inst].
  rewrite (proj2 (Z.ltb_lt p1 p2)) by lia. cbn [negb]. rewrite Hlen.
  replace ((p1 =? 0) && (p2 =? TSP.n i - 1)) with false
    by (symmetry; apply andb_false_iff; lia).
  rewrite (proj2 (Z.eqb_neq (TSP.n i) 0)) by lia.
  pose proof (Z.mod_pos_bound (p1 - 1) (TSP.n i) ltac:(lia)) as Hb1.
  pose proof (Z.mod_pos_bound (p2 + 1) (TSP.n i) ltac:(lia)) as Hb2.
  assert (Hitem : ∀ p c, 0 ≤ p → xs !! Z.to_nat p = Some c →
                         TSP.item xs p = TSP.Done c).
  { intros p c Hp Hpc. rewrite <- (Z2Nat.id p) by lia.
    by apply tsp_item_lookup. }
  rewrite (Hitem p1 x_p1), (Hitem p2 x_p2), (Hitem _ x_prev), (Hitem _ x_next)
    by (done || lia).
  cbn [TSP.bind].
  rewrite !tsp_dist_valid by (done || by eapply tsp_city_valid).
  done.
Qed.

End TSPObjective.

Section TSPExact.

Variable i : TSP.TSPInstance.
Hypothesis Hex : TSP.exact i.

Abbreviation d := (TSP.distances i).

(** The sums of the distances along a path stay in the range of the
    whole numbers that floating-point arithmetic represents. *)
Lemma tsp_path_cost_exact (l : list Z) :
  Forall (λ c, 0 ≤ c < TSP.n i) l →
  0 ≤ TSP.path_cost d l
  ∧ TSP.n i * TSP.path_cost d l
    ≤ Z.of_nat (pred (length l)) * (2 ^ 53 - 1).
Proof using Hex.
  induction 1 as [|a t Ha Ht IH]; [simpl; lia|].
  destruct t as [|b t]; [simpl; lia|].
  change (TSP.path_cost d (a :: b :: t))
    with (TSP.D d a b + TSP.path_cost d (b :: t)).
  destruct (Hex a b Ha (Forall_inv Ht)) as [H0 Hn].
  destruct IH as [IH0 IHn]. cbn [length pred] in *. lia.
Qed.

Lemma tsp_link_exact (l : list Z) :
  Forall (λ c, 0 ≤ c < TSP.n i) l →
  0 ≤ TSP.link d l l ∧ TSP.n i * TSP.link d l l ≤ 2 ^ 53 - 1.
Proof using Hex.
  intros Hall. unfold TSP.link.
  destruct (last l) as [a|] eqn:Ha; [|lia].
  destruct (head l) as [b|] eqn:Hb; [|lia].
  apply last_Some_elem_of in Ha. apply head_Some_elem_of in Hb.
  destruct (Hex a b) as [H0 Hn]; [by apply (proj1 (Forall_forall _ _) Hall)..|].
  lia.
Qed.

Lemma tsp_tour_cost_exact (xs : list Z) :
  TSP.cities i xs → 1 ≤ TSP.n i →
  0 ≤ TSP.tour_cost d xs < 2 ^ 53.
Proof using Hex.
  intros [Hlen Hall] Hn. unfold TSP.tour_cost.
  destruct (tsp_path_cost_exact xs Hall) as [Hp0 Hpn].
  destruct (tsp_link_exact xs Hall) as [Hl0 Hln].
  split; [lia|].
  assert (Hsum : TSP.n i * (TSP.path_cost d xs + TSP.link d xs xs)
                 ≤ TSP.n i * (2 ^ 53 - 1)).
  { replace (Z.of_nat (pred (length xs))) with (TSP.n i - 1) in Hpn by lia.
    lia. }
  apply Z.mul_le_mono_pos_l in Hsum; lia.
Qed.

(** With two cities or more, two distances add up to less than [2**53]. *)
Lemma tsp_delta_exact (a b a' b' : Z) :
  2 ≤ TSP.n i →
  0 ≤ a < TSP.n i → 0 ≤ b < TSP.n i →
  0 ≤ a' < TSP.n i → 0 ≤ b' < TSP.n i →
  0 ≤ TSP.D d a b + TSP.D d a' b' < 2 ^ 53.
Proof using Hex.
  intros Hn Ha Hb Ha' Hb'.
  destruct (Hex a b Ha Hb) as [H0 H1].
  destruct (Hex a' b' Ha' Hb') as [H0' H1']. nia.
Qed.

End TSPExact.

(** The delta evaluation agrees with the objective: on a tour of the
    cities of a square, symmetric instance and for positions
    [0 <= p1 < p2 < n], [calc_objective] after the 2-opt move [(p1, p2)]
    is [calc_objective] before it plus what [two_opt_move_delta_eval]
    returns; none of the three calls raises.  The distances are whole
    numbers that add up to less than [2**53]: the two objectives and the
    delta, with every sum on the way to them, are whole numbers below
    [2**53] in absolute value, on which the floating-point arithmetic of
    the code is that of the integers. *)
Theorem two_opt_delta_is_objective_change (s : TSP.TSPSolution) (p1 p2 : Z) :
  TSP.square (TSP.inst s) →
  TSP.symmetric (TSP.inst s) →
  TSP.exact (TSP.inst s) →
  TSP.cities (TSP.inst s) (TSP.x s) →
  0 ≤ p1 < p2 → p2 < TSP.n (TSP.inst s) →
  ∃ c delta,
    TSP.calc_objective s = TSP.Done c
    ∧ TSP.two_opt_move_delta_eval s p1 p2 = TSP.Done delta
    ∧ TSP.calc_objective (TSP.apply_2_opt_move s (p1, p2))
      = TSP.Done (c + delta)
    ∧ 0 ≤ c < 2 ^ 53
    ∧ - 2 ^ 53 < delta < 2 ^ 53
    ∧ 0 ≤ c + delta < 2 ^ 53.
Proof.
  destruct s as [i xs v]. cbn [TSP.inst TSP.x].
  intros Hsq Hsym Hex Hc Hp1 Hp2. pose proof Hc as [Hlen Hall].
  set (q1 := Z.to_nat p1). set (q2 := Z.to_nat p2).
  set (A := take q1 xs).
  set (B := take (S q2 - q1) (drop q1 xs)).
  set (C := drop (S q2) xs).
  assert (Hsplit : xs = A ++ B ++ C).
  { unfold A, B, C. rewrite <- (take_drop q1 xs) at 1. f_equal.
    rewrite <- (take_drop (S q2 - q1) (drop q1 xs)) at 1. f_equal.
    rewrite drop_drop. f_equal. lia. }
  assert (Happly : TSP.apply_2_opt_move (TSP.mkSolution i xs v) (p1, p2)
                   = TSP.mkSolution i (A ++ reverse B ++ C) v).
  { unfold TSP.apply_2_opt_move, TSP.slice_bound. cbn [TSP.inst TSP.x TSP.obj_val_valid].
    rewrite (proj2 (Z.ltb_ge p1 0)), (proj2 (Z.ltb_ge (p2 + 1) 0)) by lia.
    replace (Z.to_nat (Z.min p1 (Z.of_nat (length xs)))) with q1 by lia.
    replace (Nat.max q1 (Z.to_nat (Z.min (p2 + 1) (Z.of_nat (length xs)))))
      with (S q2) by lia.
    done. }
  assert (Hc' : TSP.cities i (A ++ reverse B ++ C)).
  { assert (Hperm : A ++ reverse B ++ C ≡ₚ xs).
    { rewrite Hsplit at 1. by rewrite reverse_Permutation. }
    split; by rewrite Hperm. }
  assert (HB : Forall (λ c, 0 ≤ c < TSP.n i) B).
  { rewrite Hsplit in Hall.
    apply Forall_app in Hall as [_ Hall]. by apply Forall_app in Hall as [Hall _]. }
  rewrite Happly.
  rewrite (tsp_calc_objective_tour i Hsq xs v Hc) by lia.
  rewrite (tsp_calc_objective_tour i Hsq _ v Hc') by lia.
  assert (Hrot : TSP.tour_cost (TSP.distances i) xs
                 = TSP.tour_cost (TSP.distances i) (B ++ (C ++ A))).
  { rewrite Hsplit at 1. rewrite tsp_tour_cost_rotate. by rewrite <- app_assoc. }
  assert (Hrot' : TSP.tour_cost (TSP.distances i) (A ++ reverse B ++ C)
                 = TSP.tour_cost (TSP.distances i) (reverse B ++ (C ++ A))).
  { rewrite tsp_tour_cost_rotate. by rewrite <- app_assoc. }
  pose proof (tsp_tour_cost_exact i Hex xs Hc ltac:(lia)) as Hcost.
  pose proof (tsp_tour_cost_exact i Hex _ Hc' ltac:(lia)) as Hcost'.
  rewrite Hrot in Hcost. rewrite Hrot' in Hcost'.
  rewrite Hrot, Hrot'.
  assert (HlenA : length A = q1) by (unfold A; rewrite length_take; lia).
  assert (HlenB : length B = (S q2 - q1)%nat).
  { unfold B. rewrite length_take, length_drop. lia. }
  assert (HlenC : length C = (length xs - S q2)%nat).
  { unfold C. by rewrite length_drop. }
  destruct (decide (p1 = 0 ∧ p2 = TSP.n i - 1)) as [[-> ->]|Hnot].
  - (* the whole tour is reversed *)
    assert (A = []) as -> by (by apply nil_length_inv).
    assert (C = []) as -> by (apply nil_length_inv; lia).
    rewrite !app_nil_r in *.
    rewrite (tsp_tour_cost_reverse_all i Hsym B HB) in *.
    exists (TSP.tour_cost (TSP.distances i) B), 0. split; [done|]. split.
    + unfold TSP.two_opt_move_delta_eval. cbn [TSP.x].
      rewrite (proj2 (Z.ltb_lt 0 (TSP.n i - 1))) by lia. cbn [negb].
      rewrite Hlen, !Z.eqb_refl. done.
    + split; [f_equal; lia|]. lia.
  - (* the tour goes on outside the reversed part *)
    destruct (lookup_lt_is_Some_2 xs q1 ltac:(lia)) as [bf Hbf].
    destruct (lookup_lt_is_Some_2 xs q2 ltac:(lia)) as [bl Hbl].
    pose proof (Z.mod_pos_bound (p1 - 1) (TSP.n i) ltac:(lia)) as Hb1.
    pose proof (Z.mod_pos_bound (p2 + 1) (TSP.n i) ltac:(lia)) as Hb2.
    destruct (lookup_lt_is_Some_2 xs (Z.to_nat ((p1 - 1) mod TSP.n i))
                ltac:(lia)) as [rl Hrl].
    destruct (lookup_lt_is_Some_2 xs (Z.to_nat ((p2 + 1) mod TSP.n i))
                ltac:(lia)) as [rh Hrh].
    assert (HheadB : head B = Some bf).
    { rewrite head_lookup. unfold B.
      rewrite lookup_take_lt by lia. rewrite lookup_drop.
      by rewrite Nat.add_0_r. }
    assert (HlastB : last B = Some bl).
    { rewrite last_lookup, HlenB. unfold B.
      rewrite lookup_take_lt by lia. rewrite lookup_drop.
      replace (q1 + pred (S q2 - q1))%nat with q2 by lia. done. }
    assert (HheadR : head (C ++ A) = Some rh).
    { rewrite head_lookup.
      destruct (decide (p2 + 1 < TSP.n i)) as [Hin|Hout].
      - rewrite Z.mod_small in Hrh by lia.
        rewrite lookup_app_l by lia. unfold C. rewrite lookup_drop.
        replace (S q2 + 0)%nat with (Z.to_nat (p2 + 1)) by lia. done.
      - replace (p2 + 1) with (TSP.n i) in Hrh by lia.
        rewrite Z_mod_same_full in Hrh.
        rewrite lookup_app_r by lia.
        replace (0 - length C)%nat with 0%nat by lia.
        unfold A. rewrite lookup_take_lt by lia. done. }
    assert (HlastR : last (C ++ A) = Some rl).
    { rewrite last_lookup, length_app.
      destruct (decide (0 < p1)) as [Hin|Hout].
      - rewrite Z.mod_small in Hrl by lia.
        rewrite lookup_app_r by lia.
        replace (pred (length C + length A) - length C)%nat with (pred q1) by lia.
        unfold A. rewrite lookup_take_lt by lia.
        replace (pred q1) with (Z.to_nat (p1 - 1)) by lia. done.
      - replace (p1 - 1) with (-1) in Hrl by lia.
        replace (-1 mod TSP.n i) with (TSP.n i - 1) in Hrl.
        2:{ apply Z.mod_unique with (q := -1); lia. }
        rewrite lookup_app_l by lia. unfold C. rewrite lookup_drop.
        replace (S q2 + pred (length (drop (S q2) xs) + length A))%nat
          with (Z.to_nat (TSP.n i - 1)); [done|].
        fold C. lia. }
    assert (Hcity : ∀ k c, xs !! k = Some c → 0 ≤ c < TSP.n i).
    { intros k c Hk. exact (tsp_city_valid i xs k c Hc Hk). }
    pose proof (tsp_delta_exact i Hex rl bl bf rh ltac:(lia)
                  (Hcity _ _ Hrl) (Hcity _ _ Hbl) (Hcity _ _ Hbf)
                  (Hcity _ _ Hrh)) as Hplus.
    pose proof (tsp_delta_exact i Hex rl bf bl rh ltac:(lia)
                  (Hcity _ _ Hrl) (Hcity _ _ Hbf) (Hcity _ _ Hbl)
                  (Hcity _ _ Hrh)) as Hminus.
    pose proof (tsp_tour_cost_reverse_part i Hsym B (C ++ A) bf bl rh rl
                  HB HheadB HlastB HheadR HlastR) as Hpart.
    exists (TSP.tour_cost (TSP.distances i) (B ++ C ++ A)),
           (TSP.D (TSP.distances i) rl bl + TSP.D (TSP.distances i) bf rh
            - TSP.D (TSP.distances i) rl bf - TSP.D (TSP.distances i) bl rh).
    split; [reflexivity|]. split.
    + by apply (tsp_delta_eval_value i Hsq xs v p1 p2 bf bl rl rh).
    + split; [by f_equal|].
      rewrite Hpart in Hcost'. lia.
Qed.

Lemma tsp_square4_symmetric : TSP.symmetric TSP.square4.
Proof.
  intros a b Ha Hb. simpl in Ha, Hb.
  assert (Hca : a = 0 ∨ a = 1 ∨ a = 2 ∨ a = 3) by lia.
  assert (Hcb : b = 0 ∨ b = 1 ∨ b = 2 ∨ b = 3) by lia.
  destruct Hca as [->|[->|[->| ->]]], Hcb as [->|[->|[->| ->]]]; reflexivity.
Qed.

Lemma tsp_square4_square : TSP.square TSP.square4.
Proof. split; [reflexivity|]. repeat constructor. Qed.

Lemma tsp_tour4_cities : TSP.cities TSP.square4 (TSP.x TSP.tour4).
Proof. split; [reflexivity|]. repeat constructor; simpl; lia. Qed.

Lemma tsp_square4_exact : TSP.exact TSP.square4.
Proof.
  intros a b Ha Hb. simpl in Ha, Hb.
  assert (Hca : a = 0 ∨ a = 1 ∨ a = 2 ∨ a = 3) by lia.
  assert (Hcb : b = 0 ∨ b = 1 ∨ b = 2 ∨ b = 3) by lia.
  destruct Hca as [->|[->|[->| ->]]], Hcb as [->|[->|[->| ->]]];
    vm_compute; repeat split; discriminate.
Qed.

Lemma two_opt_delta_is_objective_change_witness :
  ∃ c delta,
    TSP.calc_objective TSP.tour4 = TSP.Done c
    ∧ TSP.two_opt_move_delta_eval TSP.tour4 1 2 = TSP.Done delta
    ∧ TSP.calc_objective (TSP.apply_2_opt_move TSP.tour4 (1, 2))
      = TSP.Done (c + delta)
    ∧ 0 ≤ c < 2 ^ 53
    ∧ - 2 ^ 53 < delta < 2 ^ 53
    ∧ 0 ≤ c + delta < 2 ^ 53.
Proof.
  refine (two_opt_delta_is_objective_change TSP.tour4 1 2
            tsp_square4_square tsp_square4_symmetric tsp_square4_exact
            tsp_tour4_cities _ _).
  - lia.
  - simpl. lia.
Defined.

Lemma tsp_delta_eval_done (i : TSP.TSPInstance) (xs : list Z) (v : bool)
    (p1 p2 : Z) :
  TSP.square i → TSP.cities i xs →
  0 ≤ p1 < p2 → p2 < TSP.n i →
  ∃ delta,
    TSP.two_opt_move_delta_eval (TSP.mkSolution i xs v) p1 p2 = TSP.Done delta.
Proof.
  intros Hsq Hc Hp1 Hp2. pose proof Hc as [Hlen _].
  destruct (decide (p1 = 0 ∧ p2 = TSP.n i - 1)) as [[-> ->]|Hnot].
  - exists 0. unfold TSP.two_opt_move_delta_eval. cbn [TSP.x].
    rewrite (proj2 (Z.ltb_lt 0 (TSP.n i - 1))) by lia. cbn [negb].
    by rewrite Hlen, !Z.eqb_refl.
  - pose proof (Z.mod_pos_bound (p1 - 1) (TSP.n i) ltac:(lia)) as Hb1.
    pose proof (Z.mod_pos_bound (p2 + 1) (TSP.n i) ltac:(lia)) as Hb2.
    destruct (lookup_lt_is_Some_2 xs (Z.to_nat p1) ltac:(lia)) as [a Ha].
    destruct (lookup_lt_is_Some_2 xs (Z.to_nat p2) ltac:(lia)) as [b Hb].
    destruct (lookup_lt_is_Some_2 xs (Z.to_nat ((p1 - 1) mod TSP.n i))
                ltac:(lia)) as [c Hcc].
    destruct (lookup_lt_is_Some_2 xs (Z.to_nat ((p2 + 1) mod TSP.n i))
                ltac:(lia)) as [e He].
    eexists. by apply (tsp_delta_eval_value i Hsq xs v p1 p2 a b c e).
Qed.

Section TSPPropose.

Context {World : Type}.
Variable randint : Z → Z → World → Z * World.
Hypothesis randint_range : ∀ a b w, a ≤ b → a ≤ (randint a b w).1 ≤ b.

(** [propose_random_2_opt_move] on a tour of the cities of a square
    instance with two cities or more returns a move [(p1, p2)] with
    [0 <= p1 < p2 < len(x)], so that the assertion of the delta evaluation
    holds, together with the delta. *)
Theorem propose_random_2_opt_move_in_range (s : TSP.TSPSolution) (w : World) :
  TSP.square (TSP.inst s) →
  TSP.cities (TSP.inst s) (TSP.x s) →
  (2 ≤ length (TSP.x s))%nat →
  ∃ p1 p2 delta w',
    TSP.propose_random_2_opt_move randint s w
      = (TSP.Done ((p1, p2), delta), w')
    ∧ 0 ≤ p1 < p2 ∧ p2 < Z.of_nat (length (TSP.x s))
    ∧ TSP.two_opt_move_delta_eval s p1 p2 = TSP.Done delta.
Proof using randint_range.
  destruct s as [i xs v]. cbn [TSP.inst TSP.x].
  intros Hsq Hc Hlen2. pose proof Hc as [Hlen _].
  unfold TSP.propose_random_2_opt_move, py_randint. cbn [TSP.x].
  rewrite (proj2 (Z.ltb_ge (Z.of_nat (length xs) - 2) 0)) by lia.
  pose proof (randint_range 0 (Z.of_nat (length xs) - 2) w ltac:(lia)) as H1.
  destruct (randint 0 (Z.of_nat (length xs) - 2) w) as [p1 w1]. simpl in H1.
  rewrite (proj2 (Z.ltb_ge (Z.of_nat (length xs) - 1) (p1 + 1))) by lia.
  pose proof (randint_range (p1 + 1) (Z.of_nat (length xs) - 1) w1 ltac:(lia))
    as H2.
  destruct (randint (p1 + 1) (Z.of_nat (length xs) - 1) w1) as [p2 w2].
  simpl in H2.
  destruct (tsp_delta_eval_done i xs v p1 p2 Hsq Hc ltac:(lia) ltac:(lia))
    as [delta Hdelta].
  rewrite Hdelta. exists p1, p2, delta, w2.
  split; [done|]. split; [lia|]. split; [lia|done].
Qed.

End TSPPropose.

(** On a tour of fewer than two cities [propose_random_2_opt_move] raises
    [ValueError] at its first draw; [two_opt_move_delta_eval] fails its
    assertion unless [p1 < p2], and returns 0 for the reversal of the whole
    tour without reading the distances. *)
Theorem two_opt_edges {World : Type} (randint : Z → Z → World → Z * World)
    (s : TSP.TSPSolution) (w : World) (p1 p2 : Z) :
  ((length (TSP.x s) < 2)%nat →
   TSP.propose_random_2_opt_move randint s w
   = (TSP.Fail (TSP.Exn ValueError), w))
  ∧ (p2 ≤ p1 →
     TSP.two_opt_move_delta_eval s p1 p2 = TSP.Fail TSP.AssertionError)
  ∧ ((2 ≤ length (TSP.x s))%nat →
     TSP.two_opt_move_delta_eval s 0 (Z.of_nat (length (TSP.x s)) - 1)
     = TSP.Done 0).
Proof.
  split; [|split].
  - intros Hlen. unfold TSP.propose_random_2_opt_move, py_randint.
    by rewrite (proj2 (Z.ltb_lt (Z.of_nat (length (TSP.x s)) - 2) 0)) by lia.
  - intros Hp. unfold TSP.two_opt_move_delta_eval.
    by rewrite (proj2 (Z.ltb_ge p1 p2)) by lia.
  - intros Hlen. unfold TSP.two_opt_move_delta_eval.
    rewrite (proj2 (Z.ltb_lt 0 (Z.of_nat (length (TSP.x s)) - 1))) by lia.
    by rewrite !Z.eqb_refl.
Qed.

Lemma propose_random_2_opt_move_in_range_witness :
  ∃ p1 p2 delta w',
    TSP.propose_random_2_opt_move Demo.randint TSP.tour4 [1; 0; 5]
      = (TSP.Done ((p1, p2), delta), w')
    ∧ 0 ≤ p1 < p2 ∧ p2 < 4.
Proof.
  destruct (propose_random_2_opt_move_in_range Demo.randint Demo_randint_range
              TSP.tour4 [1; 0; 5] tsp_square4_square tsp_tour4_cities)
    as (p1 & p2 & delta & w' & Hp & H1 & H2 & _).
  - simpl. lia.
  - exists p1, p2, delta, w'. split; [exact Hp|]. split; [exact H1|exact H2].
Defined.

Lemma two_opt_edges_witness :
  TSP.two_opt_move_delta_eval TSP.tour4 2 1 = TSP.Fail TSP.AssertionError.
Proof.
  refine (proj1 (proj2 (two_opt_edges Demo.randint TSP.tour4 [] 2 1)) _). lia.
Defined.

(** [calc_objective] does not depend on the city the round trip starts
    at: a tour of the cities of a square instance with a city or more and
    the same tour started elsewhere have the same objective, and the call
    returns.  The distances are whole numbers that add up to less than
    [2**53]: so is the objective, with every sum on the way to it, and the
    floating-point additions of the code are exact. *)
Theorem calc_objective_rotation (i : TSP.TSPInstance) (l1 l2 : list Z)
    (v v' : bool) :
  TSP.square i → TSP.exact i → TSP.cities i (l1 ++ l2) → 1 ≤ TSP.n i →
  ∃ c, TSP.calc_objective (TSP.mkSolution i (l1 ++ l2) v) = TSP.Done c
       ∧ TSP.calc_objective (TSP.mkSolution i (l2 ++ l1) v') = TSP.Done c
       ∧ 0 ≤ c < 2 ^ 53.
Proof.
  intros Hsq Hex Hc Hn. pose proof Hc as [Hlen Hall].
  assert (Hc' : TSP.cities i (l2 ++ l1)).
  { split.
    - rewrite <- Hlen, !length_app. lia.
    - apply Forall_app in Hall as [H1 H2]. by apply Forall_app. }
  exists (TSP.tour_cost (TSP.distances i) (l1 ++ l2)).
  rewrite !(tsp_calc_objective_tour i Hsq) by done.
  split; [done|]. split; [by rewrite tsp_tour_cost_rotate|].
  by apply tsp_tour_cost_exact.
Qed.

Lemma calc_objective_rotation_witness :
  ∃ c, TSP.calc_objective (TSP.mkSolution TSP.square4 ([0; 2] ++ [1; 3]) false)
       = TSP.Done c
       ∧ TSP.calc_objective (TSP.mkSolution TSP.square4 ([1; 3] ++ [0; 2]) true)
         = TSP.Done c
       ∧ 0 ≤ c < 2 ^ 53.
Proof.
  refine (calc_objective_rotation TSP.square4 [0; 2] [1; 3] false true
            tsp_square4_square tsp_square4_exact tsp_tour4_cities _).
  simpl. lia.
Defined.

Lemma tsp_item_fail {A} (l : list A) (j : Z) (e : TSP.error) :
  TSP.item l j = TSP.Fail e → e = TSP.Exn IndexError.
Proof.
  unfold TSP.item, getitem. cbv zeta.
  destruct (_ <? 0); [by intros [= <-]|].
  destruct (l !! _); [done|by intros [= <-]].
Qed.

Lemma tsp_item_done_range {A} (l : list A) (j : Z) (v : A) :
  TSP.item l j = TSP.Done v → 0 ≤ j → j < Z.of_nat (length l).
Proof.
  unfold TSP.item, getitem. cbv zeta. intros Hitem Hj.
  rewrite !(proj2 (Z.ltb_ge j 0)) in Hitem by lia.
  destruct (l !! Z.to_nat j) eqn:E; [|done].
  apply lookup_lt_Some in E. lia.
Qed.

Lemma tsp_calc_loop_outcome (s : TSP.TSPSolution) (k : nat) :
  ∀ (j acc : Z), 0 ≤ j →
    match TSP.calc_loop s k j acc with
    | TSP.Done _ => (1 ≤ k)%nat → j + Z.of_nat k < Z.of_nat (length (TSP.x s))
    | TSP.Fail e => e = TSP.Exn IndexError
    end.
Proof.
  induction k as [|k IH]; intros j acc Hj; cbn [TSP.calc_loop]; [lia|].
  destruct (TSP.item (TSP.x s) j) as [a|e] eqn:Ea;
    [|by apply tsp_item_fail in Ea].
  cbn [TSP.bind].
  destruct (TSP.item (TSP.distances (TSP.inst s)) a) as [row|e] eqn:Er;
    [|by apply tsp_item_fail in Er].
  cbn [TSP.bind].
  destruct (TSP.item (TSP.x s) (j + 1)) as [b|e] eqn:Eb;
    [|by apply tsp_item_fail in Eb].
  cbn [TSP.bind].
  destruct (TSP.item row b) as [c|e] eqn:Ec; [|by apply tsp_item_fail in Ec].
  cbn [TSP.bind].
  apply tsp_item_done_range in Eb; [|lia].
  specialize (IH (j + 1) (acc + c) ltac:(lia)).
  destruct (TSP.calc_loop s k (j + 1) (acc + c)); [|done].
  intros _. destruct k as [|k]; [lia|]. specialize (IH ltac:(lia)). lia.
Qed.

(** On a tour with fewer cities than the instance, [calc_objective]
    raises [IndexError]. *)
Theorem calc_objective_short_tour (s : TSP.TSPSolution) :
  Z.of_nat (length (TSP.x s)) < TSP.n (TSP.inst s) →
  TSP.calc_objective s = TSP.Fail (TSP.Exn IndexError).
Proof.
  intros Hlen. unfold TSP.calc_objective.
  pose proof (tsp_calc_loop_outcome s (Z.to_nat (TSP.n (TSP.inst s) - 1)) 0 0
                ltac:(lia)) as Hloop.
  destruct (TSP.calc_loop s _ 0 0) as [c|e]; [|by subst e].
  cbn [TSP.bind].
  destruct (TSP.item (TSP.x s) (-1)) as [a|e] eqn:Ea;
    [|by apply tsp_item_fail in Ea as ->].
  exfalso.
  destruct (decide (2 ≤ TSP.n (TSP.inst s))) as [Hn|Hn].
  - specialize (Hloop ltac:(lia)). lia.
  - assert (Hnil : TSP.x s = []) by (apply nil_length_inv; lia).
    rewrite Hnil in Ea. discriminate Ea.
Qed.

Lemma calc_objective_short_tour_witness :
  TSP.calc_objective (TSP.mkSolution TSP.square4 [0; 2; 1] false)
  = TSP.Fail (TSP.Exn IndexError).
Proof.
  refine (calc_objective_short_tour
            (TSP.mkSolution TSP.square4 [0; 2; 1] false) _).
  simpl. lia.
Defined.
